(** * SafetyEscrow: a shallow embedding of the booking escrow contract

    The Solidity contract [SafetyEscrow] keeps one [Booking] record per
    booking identifier, two role registries and an owner.  Every external
    function is embedded as a computation in a small state-and-revert
    monad that follows the Solidity text statement by statement:
    modifiers run first, in the order in which the function header lists
    them, [require] aborts with its message, storage writes go through
    the [bookings] mapping, and [call{value: v}(...)] hands the value and
    the control to the recipient, which accepts or refuses and may call
    the contract again before it returns.  The functions inherited from
    OpenZeppelin's [Ownable] and the guard of [ReentrancyGuard] are part
    of the contract and are embedded with it.  A transaction runs such a
    computation on the committed storage and either commits the resulting
    storage together with the transfers and events it produced, or
    reverts, which discards everything the computation did: [transact]
    with recipients that only take the value, [transactWith] with
    recipients that call back. *)

From Stdlib Require Import NArith Lia List String Bool.
From stdpp Require Import base option gmap strings list.

Local Open Scope string_scope.
Local Open Scope N_scope.

(** ** Machine integers and addresses *)

(** [uint256] values and 160-bit addresses are naturals; the upper bound
    of [uint256] is checked where Solidity 0.8 checks it. *)
Abbreviation address := N (only parsing).
Abbreviation uint256 := N (only parsing).

Definition MAX_UINT256 : N := 2 ^ 256 - 1.
Definition address0 : address := 0.

(** ** Data model *)

Inductive BookingStatus : Set :=
| Pending
| SLAPassed
| SLAFailed
| Refunded
| Paid
| Disputed.

#[global] Instance BookingStatus_eq_dec : EqDecision BookingStatus.
Proof. solve_decision. Defined.

Record Booking : Set := mkBooking {
  tourist : address;
  operator : address;
  amount : uint256;
  depositTime : uint256;
  slaDeadline : uint256;
  status : BookingStatus;
  slaVerified : bool;
  bookingId : string
}.

(** The value a Solidity mapping yields for a key that was never written. *)
Definition zeroBooking : Booking :=
  mkBooking address0 address0 0 0 0 Pending false "".

Definition set_status (st : BookingStatus) (b : Booking) : Booking :=
  mkBooking (tourist b) (operator b) (amount b) (depositTime b)
            (slaDeadline b) st (slaVerified b) (bookingId b).

Definition set_slaVerified (v : bool) (b : Booking) : Booking :=
  mkBooking (tourist b) (operator b) (amount b) (depositTime b)
            (slaDeadline b) (status b) v (bookingId b).

(** Contract configuration. *)
Definition SLA_TIMEOUT_HOURS : uint256 := 24.
Definition PENALTY_PERCENTAGE : uint256 := 10.
Definition BASIS_POINTS : uint256 := 10000.
(** The Solidity time unit [1 hours], in seconds. *)
Definition hours : uint256 := 3600.

Inductive Event : Set :=
| Ev_DepositMade (id : string) (t o : address) (a : uint256)
| Ev_SLAPassed (id : string) (o : address)
| Ev_SLAFailed (id : string) (t : address)
| Ev_Refunded (id : string) (t : address) (a : uint256)
| Ev_PaidOut (id : string) (o : address) (a : uint256)
| Ev_Disputed (id : string) (t o : address)
| Ev_DisputeResolved (id : string) (operatorWins : bool) (a : uint256)
| Ev_OracleAuthorized (o : address)
| Ev_OracleRevoked (o : address)
| Ev_ArbiterAuthorized (a : address)
| Ev_ArbiterRevoked (a : address)
| Ev_OwnershipTransferred (previousOwner newOwner : address).

(** Contract storage.  [owner] is the owner slot of the inherited
    [Ownable]; it is set to the deployer and read by [onlyOwner]. *)
Record Storage : Type := mkStorage {
  bookings : gmap string Booking;
  authorizedOracles : gmap N bool;
  arbiters : gmap N bool;
  owner : address
}.

(** Mapping reads, with Solidity's default for absent keys. *)
Definition bookingAt (s : Storage) (id : string) : Booking :=
  default zeroBooking (bookings s !! id).

Definition isOracle (s : Storage) (a : address) : bool :=
  default false (authorizedOracles s !! a).

Definition isArbiter (s : Storage) (a : address) : bool :=
  default false (arbiters s !! a).

Definition set_booking (id : string) (b : Booking) (s : Storage) : Storage :=
  mkStorage (<[id := b]> (bookings s)) (authorizedOracles s) (arbiters s) (owner s).

Definition set_oracle (a : address) (v : bool) (s : Storage) : Storage :=
  mkStorage (bookings s) (<[a := v]> (authorizedOracles s)) (arbiters s) (owner s).

Definition set_arbiter (a : address) (v : bool) (s : Storage) : Storage :=
  mkStorage (bookings s) (authorizedOracles s) (<[a := v]> (arbiters s)) (owner s).

Definition set_owner (o : address) (s : Storage) : Storage :=
  mkStorage (bookings s) (authorizedOracles s) (arbiters s) o.

(** ** Execution environment and the revert monad *)

(** What the host supplies to one call: the authenticated caller, the
    block time, and the behaviour of the value-transfer primitive. *)
Record Env : Type := mkEnv {
  msg_sender : address;
  block_timestamp : uint256;
  call_succeeds : address -> uint256 -> bool
}.

(** The state a running call works on: storage, the transfers performed
    so far and the events emitted so far, together with the flag of the
    re-entrancy guard and the code of the other accounts.  [callee w lock
    a v st] is what the code at address [a] does to this contract while it
    holds control on receiving [v]: the storage it leaves and the events
    its calls emitted, given the guard's flag [lock] and the storage [st]
    it finds. *)
Record World : Type := mkWorld {
  storage : Storage;
  sent : list (address * N);
  logs : list Event;
  entered : bool;
  callee : bool -> address -> uint256 -> Storage -> Storage * list Event
}.

Inductive Revert : Set :=
| Error (msg : string)
| Panic (code : N).

Inductive Step (A : Type) : Type :=
| Continue (a : A) (w : World)
| Abort (r : Revert) (w : World).
Arguments Continue {A} a w.
Arguments Abort {A} r w.

Definition Exec (A : Type) : Type := Env -> World -> Step A.

Definition ret {A} (a : A) : Exec A := fun _ w => Continue a w.

Definition bind {A B} (m : Exec A) (k : A -> Exec B) : Exec B :=
  fun e w =>
    match m e w with
    | Continue a w' => k a e w'
    | Abort r w' => Abort r w'
    end.

Notation "x <- m ;; k" := (bind m (fun x => k))
  (at level 100, m at next level, right associativity).
Notation "m ;;; k" := (bind m (fun _ => k))
  (at level 100, right associativity).

Definition revert {A} (r : Revert) : Exec A := fun _ w => Abort r w.

Definition require (c : bool) (msg : string) : Exec unit :=
  if c then ret tt else revert (Error msg).

Definition sender : Exec address := fun e w => Continue (msg_sender e) w.
Definition timestamp : Exec uint256 := fun e w => Continue (block_timestamp e) w.

Definition sload : Exec Storage := fun _ w => Continue (storage w) w.

Definition sstore (f : Storage -> Storage) : Exec unit :=
  fun _ w => Continue tt (mkWorld (f (storage w)) (sent w) (logs w) (entered w) (callee w)).

Definition emit (ev : Event) : Exec unit :=
  fun _ w => Continue tt (mkWorld (storage w) (sent w) (logs w ++ [ev]) (entered w) (callee w)).

(** [to.call{value: v}("")]: returns the success flag.  A successful
    call is recorded as a transfer out of escrow, and the recipient's code
    has run: whatever it did to this contract meanwhile is in the storage
    and the events.  A failed call leaves no trace, the recipient's frame
    having been reverted. *)
Definition call_value (to : address) (v : uint256) : Exec bool :=
  fun e w =>
    if call_succeeds e to v
    then let (s', evs) := callee w (entered w) to v (storage w) in
         Continue true (mkWorld s' (sent w ++ [(to, v)]) (logs w ++ evs)
                                (entered w) (callee w))
    else Continue false w.

Definition isEntered : Exec bool := fun _ w => Continue (entered w) w.

Definition setEntered (b : bool) : Exec unit :=
  fun _ w => Continue tt (mkWorld (storage w) (sent w) (logs w) b (callee w)).

(** Checked arithmetic of Solidity 0.8: overflow is [Panic(0x11)]. *)
Definition checked_add (a b : uint256) : Exec uint256 :=
  if a + b <=? MAX_UINT256 then ret (a + b) else revert (Panic 17).

Definition checked_mul (a b : uint256) : Exec uint256 :=
  if a * b <=? MAX_UINT256 then ret (a * b) else revert (Panic 17).

Definition checked_sub (a b : uint256) : Exec uint256 :=
  if b <=? a then ret (a - b) else revert (Panic 17).

(** [bookings[bookingId]] read, and write of one field through the
    storage pointer [Booking storage booking = bookings[bookingId]]. *)
Definition booking (id : string) : Exec Booking :=
  s <- sload ;; ret (bookingAt s id).

Definition update_booking (id : string) (f : Booking -> Booking) : Exec unit :=
  sstore (fun s => set_booking id (f (bookingAt s id)) s).

(** ** Modifiers *)

Definition onlyAuthorizedOracle : Exec unit :=
  s <- sload ;; a <- sender ;;
  require (isOracle s a) "Not authorized oracle".

Definition onlyArbiter : Exec unit :=
  s <- sload ;; a <- sender ;;
  require (isArbiter s a) "Not authorized arbiter".

Definition bookingExists (id : string) : Exec unit :=
  b <- booking id ;;
  require (negb (tourist b =? address0)) "Booking does not exist".

Definition validBookingStatus (id : string) (requiredStatus : BookingStatus) : Exec unit :=
  b <- booking id ;;
  require (bool_decide (status b = requiredStatus)) "Invalid booking status".

(** [onlyOwner] of the inherited [Ownable]. *)
Definition onlyOwner : Exec unit :=
  s <- sload ;; a <- sender ;;
  require (a =? owner s) "Ownable: caller is not the owner".

(** [nonReentrant] of the inherited [ReentrancyGuard]: refuse entry
    while the flag is set, set it around the body, clear it afterwards.
    The flag is clear whenever a transaction starts. *)
Definition nonReentrant {A} (body : Exec A) : Exec A :=
  l <- isEntered ;;
  require (negb l) "ReentrancyGuard: reentrant call" ;;;
  setEntered true ;;;
  a <- body ;;
  setEntered false ;;;
  ret a.

(** ** Constructor and external functions *)

Definition constructor (deployer : address) : Storage :=
  mkStorage ∅ ∅ (<[deployer := true]> ∅) deployer.

(** [msg_value] is the value attached to the (payable) call. *)
Definition createBooking (id : string) (op : address) (msg_value : uint256) : Exec unit :=
  nonReentrant (
    me <- sender ;;
    now <- timestamp ;;
    require (0 <? msg_value) "Deposit amount must be greater than 0" ;;;
    require (negb (op =? address0)) "Invalid operator address" ;;;
    require (negb (op =? me)) "Cannot book with yourself" ;;;
    b <- booking id ;;
    require (tourist b =? address0) "Booking ID already exists" ;;;
    deadline <- checked_add now (SLA_TIMEOUT_HOURS * (1 * hours)) ;;
    sstore (set_booking id
              (mkBooking me op msg_value now deadline Pending false id)) ;;;
    emit (Ev_DepositMade id me op msg_value)).

Definition verifySLA (id : string) (slaPassed : bool) : Exec unit :=
  onlyAuthorizedOracle ;;;
  bookingExists id ;;;
  validBookingStatus id Pending ;;;
  b <- booking id ;;
  now <- timestamp ;;
  require (negb (slaVerified b)) "SLA already verified" ;;;
  require (now <=? slaDeadline b) "SLA deadline passed" ;;;
  update_booking id (set_slaVerified true) ;;;
  if slaPassed then
    update_booking id (set_status SLAPassed) ;;;
    b <- booking id ;;
    emit (Ev_SLAPassed id (operator b))
  else
    update_booking id (set_status SLAFailed) ;;;
    b <- booking id ;;
    emit (Ev_SLAFailed id (tourist b)).

Definition releaseToOperator (id : string) : Exec unit :=
  nonReentrant (
    bookingExists id ;;;
    validBookingStatus id SLAPassed ;;;
    b <- booking id ;;
    require (slaVerified b) "SLA not verified" ;;;
    update_booking id (set_status Paid) ;;;
    b <- booking id ;;
    let amt := amount b in
    success <- call_value (operator b) amt ;;
    require success "Transfer to operator failed" ;;;
    b <- booking id ;;
    emit (Ev_PaidOut id (operator b) amt)).

Definition refundToTourist (id : string) : Exec unit :=
  nonReentrant (
    bookingExists id ;;;
    validBookingStatus id SLAFailed ;;;
    b <- booking id ;;
    require (slaVerified b) "SLA not verified" ;;;
    update_booking id (set_status Refunded) ;;;
    b <- booking id ;;
    let refundAmount := amount b in
    success <- call_value (tourist b) refundAmount ;;
    require success "Transfer to tourist failed" ;;;
    b <- booking id ;;
    emit (Ev_Refunded id (tourist b) refundAmount)).

Definition refundWithPenalty (id : string) : Exec unit :=
  nonReentrant (
    bookingExists id ;;;
    validBookingStatus id SLAFailed ;;;
    b <- booking id ;;
    require (slaVerified b) "SLA not verified" ;;;
    update_booking id (set_status Refunded) ;;;
    b <- booking id ;;
    scaled <- checked_mul (amount b) PENALTY_PERCENTAGE ;;
    let penaltyAmount := scaled / BASIS_POINTS in
    b <- booking id ;;
    refundAmount <- checked_sub (amount b) penaltyAmount ;;
    (if 0 <? penaltyAmount then
       b <- booking id ;;
       success1 <- call_value (operator b) penaltyAmount ;;
       require success1 "Penalty transfer to operator failed"
     else ret tt) ;;;
    (if 0 <? refundAmount then
       b <- booking id ;;
       success2 <- call_value (tourist b) refundAmount ;;
       require success2 "Refund transfer to tourist failed"
     else ret tt) ;;;
    b <- booking id ;;
    emit (Ev_Refunded id (tourist b) refundAmount) ;;;
    b <- booking id ;;
    emit (Ev_PaidOut id (operator b) penaltyAmount)).

Definition handleTimeout (id : string) : Exec unit :=
  nonReentrant (
    bookingExists id ;;;
    validBookingStatus id Pending ;;;
    b <- booking id ;;
    now <- timestamp ;;
    require (slaDeadline b <? now) "SLA deadline not reached" ;;;
    require (negb (slaVerified b)) "SLA already verified" ;;;
    update_booking id (set_status Refunded) ;;;
    b <- booking id ;;
    let amt := amount b in
    success <- call_value (tourist b) amt ;;
    require success "Timeout refund failed" ;;;
    b <- booking id ;;
    emit (Ev_Refunded id (tourist b) amt)).

Definition raiseDispute (id : string) : Exec unit :=
  bookingExists id ;;;
  b <- booking id ;;
  me <- sender ;;
  require ((me =? tourist b) || (me =? operator b))
          "Only tourist or operator can raise dispute" ;;;
  require (bool_decide (status b = SLAPassed) || bool_decide (status b = SLAFailed))
          "Can only dispute after SLA verification" ;;;
  update_booking id (set_status Disputed) ;;;
  b <- booking id ;;
  emit (Ev_Disputed id (tourist b) (operator b)).

Definition resolveDispute (id : string) (operatorWins : bool) : Exec unit :=
  onlyArbiter ;;;
  nonReentrant (
    bookingExists id ;;;
    validBookingStatus id Disputed ;;;
    b <- booking id ;;
    let amt := amount b in
    (if operatorWins then
       update_booking id (set_status Paid) ;;;
       b <- booking id ;;
       success <- call_value (operator b) amt ;;
       require success "Dispute resolution payment failed" ;;;
       b <- booking id ;;
       emit (Ev_PaidOut id (operator b) amt)
     else
       update_booking id (set_status Refunded) ;;;
       b <- booking id ;;
       success <- call_value (tourist b) amt ;;
       require success "Dispute resolution refund failed" ;;;
       b <- booking id ;;
       emit (Ev_Refunded id (tourist b) amt)) ;;;
    emit (Ev_DisputeResolved id operatorWins amt)).

Definition authorizeOracle (o : address) : Exec unit :=
  onlyOwner ;;;
  require (negb (o =? address0)) "Invalid oracle address" ;;;
  sstore (set_oracle o true) ;;;
  emit (Ev_OracleAuthorized o).

Definition revokeOracle (o : address) : Exec unit :=
  onlyOwner ;;;
  sstore (set_oracle o false) ;;;
  emit (Ev_OracleRevoked o).

Definition authorizeArbiter (a : address) : Exec unit :=
  onlyOwner ;;;
  require (negb (a =? address0)) "Invalid arbiter address" ;;;
  sstore (set_arbiter a true) ;;;
  emit (Ev_ArbiterAuthorized a).

Definition revokeArbiter (a : address) : Exec unit :=
  onlyOwner ;;;
  sstore (set_arbiter a false) ;;;
  emit (Ev_ArbiterRevoked a).

(** The two functions every [Ownable] contract exposes (OpenZeppelin
    4.x, the version whose [onlyOwner] message the test suite expects);
    SafetyEscrow inherits them unchanged. *)
Definition transferOwnership_ (newOwner : address) : Exec unit :=
  s <- sload ;;
  let oldOwner := owner s in
  sstore (set_owner newOwner) ;;;
  emit (Ev_OwnershipTransferred oldOwner newOwner).

Definition renounceOwnership : Exec unit :=
  onlyOwner ;;;
  transferOwnership_ address0.

Definition transferOwnership (newOwner : address) : Exec unit :=
  onlyOwner ;;;
  require (negb (newOwner =? address0)) "Ownable: new owner is the zero address" ;;;
  transferOwnership_ newOwner.

(** ** View functions *)

Definition getBooking (id : string) : Exec Booking :=
  b <- booking id ;;
  require (negb (tourist b =? address0)) "Booking does not exist" ;;;
  booking id.

Definition isTimedOut (id : string) : Exec bool :=
  b <- booking id ;;
  now <- timestamp ;;
  ret ((slaDeadline b <? now) && negb (slaVerified b)).

Definition getTimeRemaining (id : string) : Exec uint256 :=
  b <- booking id ;;
  now <- timestamp ;;
  if slaDeadline b <=? now then ret 0
  else checked_sub (slaDeadline b) now.

(** ** Transactions *)

Inductive Call : Set :=
| CreateBooking (id : string) (op : address) (msg_value : uint256)
| VerifySLA (id : string) (slaPassed : bool)
| ReleaseToOperator (id : string)
| RefundToTourist (id : string)
| RefundWithPenalty (id : string)
| HandleTimeout (id : string)
| RaiseDispute (id : string)
| ResolveDispute (id : string) (operatorWins : bool)
| AuthorizeOracle (o : address)
| RevokeOracle (o : address)
| AuthorizeArbiter (a : address)
| RevokeArbiter (a : address)
| TransferOwnership (newOwner : address)
| RenounceOwnership.

Definition dispatch (c : Call) : Exec unit :=
  match c with
  | CreateBooking id op v => createBooking id op v
  | VerifySLA id p => verifySLA id p
  | ReleaseToOperator id => releaseToOperator id
  | RefundToTourist id => refundToTourist id
  | RefundWithPenalty id => refundWithPenalty id
  | HandleTimeout id => handleTimeout id
  | RaiseDispute id => raiseDispute id
  | ResolveDispute id w => resolveDispute id w
  | AuthorizeOracle o => authorizeOracle o
  | RevokeOracle o => revokeOracle o
  | AuthorizeArbiter a => authorizeArbiter a
  | RevokeArbiter a => revokeArbiter a
  | TransferOwnership o => transferOwnership o
  | RenounceOwnership => renounceOwnership
  end.

Inductive Receipt : Type :=
| Success (s' : Storage) (transfers : list (address * N)) (events : list Event)
| Reverted (r : Revert).

(** The world in which a call starts executing when no recipient of a
    transfer calls back into the contract. *)
Definition fresh (s : Storage) : World :=
  mkWorld s [] [] false (fun _ _ _ st => (st, [])).

(** One transaction: commit on normal termination, discard on revert. *)
Definition transact (e : Env) (c : Call) (s : Storage) : Receipt :=
  match dispatch c e (fresh s) with
  | Continue _ w => Success (storage w) (sent w) (logs w)
  | Abort r _ => Reverted r
  end.

(** The committed storage after a transaction was attempted. *)
Definition stateAfter (e : Env) (c : Call) (s : Storage) : Storage :=
  match transact e c s with
  | Success s' _ _ => s'
  | Reverted _ => s
  end.

(** A view call returns a value or reverts; it has no storage to commit. *)
Definition staticcall {A} (f : Exec A) (e : Env) (s : Storage) : Revert + A :=
  match f e (fresh s) with
  | Continue a _ => inr a
  | Abort r _ => inl r
  end.

Fixpoint run (trace : list (Env * Call)) (s : Storage) : Storage :=
  match trace with
  | [] => s
  | (e, c) :: rest => run rest (stateAfter e c s)
  end.

(** States the contract can be in: deployed, then successful transactions. *)
Inductive reachable : Storage -> Prop :=
| reachable_deployed (deployer : address) :
    reachable (constructor deployer)
| reachable_step (e : Env) (c : Call) (s s' : Storage) tr ev :
    reachable s ->
    transact e c s = Success s' tr ev ->
    reachable s'.

(** ** Recipients that call back *)

(** A transfer hands control to its recipient, whose code can call the
    contract again before it returns.  A [Reaction] gives, for a
    recipient, the value it receives and the storage it finds, the calls
    made into the contract while it holds control, each with its caller
    (the recipient itself or a contract it called). *)
Definition Reaction : Type := address -> uint256 -> Storage -> list (address * Call).

(** Recipients that only take the value. *)
Definition quiet : Reaction := fun _ _ _ => [].

(** The environment of a call made from inside a transfer: same block,
    the caller the recipient chose. *)
Definition nested (now : uint256) (who : address) : Env :=
  mkEnv who now (fun _ _ => false).

(** The calls of a recipient, made one after the other on the storage
    the previous one left; a call that reverts leaves nothing.  They run
    with the guard's flag as the outer call has it. *)
Fixpoint reenter (now : uint256) (lock : bool) (calls : list (address * Call))
    (s : Storage) : Storage * list Event :=
  match calls with
  | [] => (s, [])
  | (who, c) :: rest =>
      match dispatch c (nested now who)
                     (mkWorld s [] [] lock (fun _ _ _ st => (st, []))) with
      | Continue _ w =>
          let (s', evs) := reenter now lock rest (storage w) in
          (s', (logs w ++ evs)%list)
      | Abort _ _ => reenter now lock rest s
      end
  end.

(** The world in which a call starts executing when recipients react
    as [r] says. *)
Definition during (r : Reaction) (e : Env) (s : Storage) : World :=
  mkWorld s [] [] false
          (fun lock to v st => reenter (block_timestamp e) lock (r to v st) st).

(** One transaction with recipients that may call back. *)
Definition transactWith (r : Reaction) (e : Env) (c : Call) (s : Storage) : Receipt :=
  match dispatch c e (during r e s) with
  | Continue _ w => Success (storage w) (sent w) (logs w)
  | Abort x _ => Reverted x
  end.

Definition stateAfterWith (r : Reaction) (e : Env) (c : Call) (s : Storage) : Storage :=
  match transactWith r e c s with
  | Success s' _ _ => s'
  | Reverted _ => s
  end.

(** The functions declared [nonReentrant]. *)
Definition guarded (c : Call) : bool :=
  match c with
  | CreateBooking _ _ _ | ReleaseToOperator _ | RefundToTourist _
  | RefundWithPenalty _ | HandleTimeout _ | ResolveDispute _ _ => true
  | _ => false
  end.

(** The calls of a recipient that can take effect: those of functions
    without the guard. *)
Fixpoint landing (now : uint256) (calls : list (address * Call)) : list (Env * Call) :=
  match calls with
  | [] => []
  | (who, c) :: rest =>
      if guarded c then landing now rest else (nested now who, c) :: landing now rest
  end.

(** ** Vocabulary of the specification *)

Definition isTerminal (st : BookingStatus) : bool :=
  match st with
  | Refunded | Paid => true
  | _ => false
  end.

Definition totalPaid (transfers : list (address * N)) : N :=
  fold_right (fun p acc => snd p + acc) 0 transfers.

(** The transition operations of the ledger that act on booking [id]. *)
Definition actsOn (c : Call) (id : string) : bool :=
  match c with
  | VerifySLA i _ | ReleaseToOperator i | RefundToTourist i
  | RefundWithPenalty i | HandleTimeout i | RaiseDispute i
  | ResolveDispute i _ => bool_decide (i = id)
  | _ => false
  end.

Inductive ErrorKind : Set :=
| NotFound
| DuplicateId
| InvalidAmount
| InvalidParty
| Unauthorized
| InvalidState
| AlreadyVerified
| DeadlinePassed
| DeadlineNotReached
| TransferFailed.

(** How the contract's revert messages fall under the error taxonomy. *)
Definition errorTable : list (string * ErrorKind) :=
  [ ("Booking does not exist", NotFound);
    ("Booking ID already exists", DuplicateId);
    ("Deposit amount must be greater than 0", InvalidAmount);
    ("Invalid operator address", InvalidParty);
    ("Cannot book with yourself", InvalidParty);
    ("Not authorized oracle", Unauthorized);
    ("Not authorized arbiter", Unauthorized);
    ("Only tourist or operator can raise dispute", Unauthorized);
    ("Ownable: caller is not the owner", Unauthorized);
    ("Invalid booking status", InvalidState);
    ("Can only dispute after SLA verification", InvalidState);
    ("SLA not verified", InvalidState);
    ("SLA already verified", AlreadyVerified);
    ("SLA deadline passed", DeadlinePassed);
    ("SLA deadline not reached", DeadlineNotReached);
    ("Transfer to operator failed", TransferFailed);
    ("Transfer to tourist failed", TransferFailed);
    ("Penalty transfer to operator failed", TransferFailed);
    ("Refund transfer to tourist failed", TransferFailed);
    ("Timeout refund failed", TransferFailed);
    ("Dispute resolution payment failed", TransferFailed);
    ("Dispute resolution refund failed", TransferFailed) ].

Fixpoint lookupKind (tbl : list (string * ErrorKind)) (msg : string) : option ErrorKind :=
  match tbl with
  | [] => None
  | (m, k) :: rest => if String.eqb m msg then Some k else lookupKind rest msg
  end.

Definition errorKind (r : Revert) : option ErrorKind :=
  match r with
  | Error msg => lookupKind errorTable msg
  | Panic _ => None
  end.

(** A revert raised after the checks, while value is being moved: a
    failed transfer or an arithmetic panic. *)
Definition duringPayout (r : Revert) : bool :=
  match r with
  | Error msg =>
      match lookupKind errorTable msg with
      | Some TransferFailed => true
      | _ => false
      end
  | Panic _ => true
  end.

(** ** Concrete scenarios used in the examples below *)

Definition alice : address := 1.   (* deployer and owner *)
Definition tina : address := 2.    (* tourist *)
Definition oscar : address := 3.   (* operator *)
Definition olivia : address := 4.  (* oracle *)

Definition accepting (who : address) (now : uint256) : Env :=
  mkEnv who now (fun _ _ => true).

Definition rejecting (who : address) (now : uint256) : Env :=
  mkEnv who now (fun _ _ => false).

Definition deployed : Storage :=
  stateAfter (accepting alice 0) (AuthorizeOracle olivia) (constructor alice).

(** A booking of [v] by [tina] with [oscar], made at time 1000. *)
Definition booked (id : string) (v : uint256) : Storage :=
  stateAfter (accepting tina 1000) (CreateBooking id oscar v) deployed.

Definition failedSLA (id : string) (v : uint256) : Storage :=
  stateAfter (accepting olivia 2000) (VerifySLA id false) (booked id v).

Definition passedSLA (id : string) (v : uint256) : Storage :=
  stateAfter (accepting olivia 2000) (VerifySLA id true) (booked id v).

(** A recipient that answers every transfer by raising a dispute on
    another booking and by trying to make a booking of its own. *)
Definition meddling : Reaction :=
  fun to _ _ => [(to, RaiseDispute "b2"); (to, CreateBooking "b9" oscar 5)].

(** Two bookings of [tina] with [oscar]: "b1" passed, "b2" failed. *)
Definition twoBookings : Storage :=
  run [(accepting tina 1100, CreateBooking "b2" oscar 50);
       (accepting olivia 2100, VerifySLA "b2" false)]
      (passedSLA "b1" 100).

(** The booking identifier a call names, if any. *)
Definition targetOf (c : Call) : option string :=
  match c with
  | CreateBooking i _ _ | VerifySLA i _ | ReleaseToOperator i
  | RefundToTourist i | RefundWithPenalty i | HandleTimeout i
  | RaiseDispute i | ResolveDispute i _ => Some i
  | _ => None
  end.

(** The operations that move escrowed value for booking [id]. *)
Definition movesFunds (c : Call) (id : string) : bool :=
  match c with
  | ReleaseToOperator i | RefundToTourist i | RefundWithPenalty i
  | HandleTimeout i | ResolveDispute i _ => bool_decide (i = id)
  | _ => false
  end.

(** The transfers [refundWithPenalty] makes for a booking [b]. *)
Definition penaltySplit (b : Booking) : list (address * N) :=
  let penaltyAmount := amount b * PENALTY_PERCENTAGE / BASIS_POINTS in
  let refundAmount := amount b - penaltyAmount in
  (if 0 <? penaltyAmount then [(operator b, penaltyAmount)] else [])
  ++ (if 0 <? refundAmount then [(tourist b, refundAmount)] else []).

(** The transfers an operation owes when it goes through. *)
Definition dues (c : Call) (s : Storage) : list (address * N) :=
  match c with
  | ReleaseToOperator id =>
      [(operator (bookingAt s id), amount (bookingAt s id))]
  | RefundToTourist id | HandleTimeout id =>
      [(tourist (bookingAt s id), amount (bookingAt s id))]
  | RefundWithPenalty id => penaltySplit (bookingAt s id)
  | ResolveDispute id operatorWins =>
      [(if operatorWins then operator (bookingAt s id) else tourist (bookingAt s id),
        amount (bookingAt s id))]
  | _ => []
  end.

(** A recipient that refuses what it is sent. *)
Definition refused (e : Env) (p : address * N) : Prop :=
  call_succeeds e (fst p) (snd p) = false.

(** The property that a [Pending] booking is unverified. *)
Definition pendingUnverified (s : Storage) : Prop :=
  forall id, status (bookingAt s id) = Pending -> slaVerified (bookingAt s id) = false.

(** A computation that leaves the world it runs in untouched. *)
Definition pureExec {A} (f : Exec A) : Prop :=
  forall e w, match f e w with
              | Continue _ w' => w' = w
              | Abort _ w' => w' = w
              end.

(** The booking "b2" of 100 after its penalty refund. *)
Definition refunded_b2 : Storage :=
  stateAfter (accepting 9 3000) (RefundWithPenalty "b2") (failedSLA "b2" 100).

(** ** Further vocabulary: records, transitions and accounting *)

(** What createBooking establishes for the record it stores under [id]. *)
Definition wellFormedBooking (id : string) (b : Booking) : Prop :=
  operator b <> address0
  /\ operator b <> tourist b
  /\ 0 < amount b
  /\ slaDeadline b = depositTime b + SLA_TIMEOUT_HOURS * hours
  /\ slaDeadline b <= MAX_UINT256
  /\ bookingId b = id.

(** The fields no function assigns after creation. *)
Definition sameTerms (b b' : Booking) : Prop :=
  tourist b' = tourist b
  /\ operator b' = operator b
  /\ amount b' = amount b
  /\ depositTime b' = depositTime b
  /\ slaDeadline b' = slaDeadline b
  /\ bookingId b' = bookingId b.

(** The status changes the contract's functions can make. *)
Definition edge (from to : BookingStatus) : bool :=
  match from, to with
  | Pending, (SLAPassed | SLAFailed | Refunded) => true
  | SLAPassed, (Paid | Disputed) => true
  | SLAFailed, (Refunded | Disputed) => true
  | Disputed, (Paid | Refunded) => true
  | _, _ => false
  end.

(** Statuses that only a recorded verification leads to. *)
Definition afterVerification (st : BookingStatus) : bool :=
  match st with
  | SLAPassed | SLAFailed | Paid | Disputed => true
  | Pending | Refunded => false
  end.

(** The property that a status past verification has the flag set. *)
Definition verifiedWhenPast (s : Storage) : Prop :=
  forall id, afterVerification (status (bookingAt s id)) = true ->
             slaVerified (bookingAt s id) = true.

(** How far along its life a booking is. *)
Definition stage (st : BookingStatus) : nat :=
  match st with
  | Pending => 0
  | SLAPassed | SLAFailed => 1
  | Disputed => 2
  | Refunded | Paid => 3
  end.

(** The calls by which an owner [d] gives up its arbiter role or the
    ownership itself. *)
Definition relinquishes (d : address) (c : Call) : bool :=
  match c with
  | RevokeArbiter a => bool_decide (a = d)
  | TransferOwnership _ | RenounceOwnership => true
  | _ => false
  end.

(** The role check a function starts with, if it has one. *)
Definition callerAllowed (s : Storage) (e : Env) (c : Call) : bool :=
  match c with
  | VerifySLA _ _ => isOracle s (msg_sender e)
  | ResolveDispute _ _ => isArbiter s (msg_sender e)
  | AuthorizeOracle _ | RevokeOracle _ | AuthorizeArbiter _ | RevokeArbiter _
  | TransferOwnership _ | RenounceOwnership =>
      msg_sender e =? owner s
  | _ => true
  end.

(** The number of events a function emits when it succeeds. *)
Definition eventCount (c : Call) : nat :=
  match c with
  | RefundWithPenalty _ | ResolveDispute _ _ => 2
  | _ => 1
  end.

(** The permissionless function that settles a booking in status [st]. *)
Definition exitCall (st : BookingStatus) (id : string) : option Call :=
  match st with
  | Pending => Some (HandleTimeout id)
  | SLAPassed => Some (ReleaseToOperator id)
  | SLAFailed => Some (RefundToTourist id)
  | _ => None
  end.

(** The functions that carry no caller check. *)
Definition permissionless (c : Call) : bool :=
  match c with
  | ReleaseToOperator _ | RefundToTourist _ | RefundWithPenalty _
  | HandleTimeout _ => true
  | _ => false
  end.

(** The functions that contain a value transfer. *)
Definition isPayout (c : Call) : bool :=
  match c with
  | ReleaseToOperator _ | RefundToTourist _ | RefundWithPenalty _
  | HandleTimeout _ | ResolveDispute _ _ => true
  | _ => false
  end.

(** Value a booking still holds in escrow. *)
Definition held (b : Booking) : N :=
  if isTerminal (status b) then 0 else amount b.

(** Value held by all stored bookings together. *)
Definition escrowed (s : Storage) : N :=
  map_fold (fun (_ : string) (b : Booking) (acc : N) => held b + acc) 0 (bookings s).

(** Value a call brings in. *)
Definition deposit (c : Call) : N :=
  match c with
  | CreateBooking _ _ v => v
  | _ => 0
  end.

(** Every stored record has a tourist, as records created by a real
    (non-null) caller do. *)
Definition storedHaveTourist (s : Storage) : Prop :=
  forall id b, bookings s !! id = Some b -> tourist b <> address0.

(** Totals over a sequence of attempted calls; reverted calls count for nothing. *)
Fixpoint deposited (trace : list (Env * Call)) (s : Storage) : N :=
  match trace with
  | [] => 0
  | (e, c) :: rest =>
      match transact e c s with
      | Success s' _ _ => deposit c + deposited rest s'
      | Reverted _ => deposited rest s
      end
  end.

Fixpoint paidOut (trace : list (Env * Call)) (s : Storage) : N :=
  match trace with
  | [] => 0
  | (e, c) :: rest =>
      match transact e c s with
      | Success s' tr _ => totalPaid tr + paidOut rest s'
      | Reverted _ => paidOut rest s
      end
  end.

(** ** The EmergencyAlert contract *)

(** The second contract of the repository: a register of emergency
    alerts raised by tourists, and of emergency contacts kept by the
    owner.  Its functions move no value, so they are written as functions
    from the storage to either a revert or the new storage and the events
    emitted; [for] loops run over the list of their index values. *)
Module EmergencyAlert.

Inductive AlertType : Set :=
| PANIC
| GEOFENCE
| ANOMALY.

#[global] Instance AlertType_eq_dec : EqDecision AlertType.
Proof. solve_decision. Defined.

Record Alert : Set := mkAlert {
  tourist : address;
  alertType : AlertType;
  location : string;
  timestamp : uint256;
  isActive : bool;
  description : string
}.

Definition zeroAlert : Alert := mkAlert address0 PANIC "" 0 false "".

Definition set_isActive (v : bool) (a : Alert) : Alert :=
  mkAlert (tourist a) (alertType a) (location a) (timestamp a) v (description a).

Inductive Event : Set :=
| AlertTriggered (alertId : uint256) (t : address) (ty : AlertType)
                 (loc : string) (time : uint256) (desc : string)
| AlertResolved (alertId : uint256) (t : address) (resolvedAt : uint256)
| EmergencyContactAdded (contactType : string) (contactAddress : address)
| EmergencyContactRemoved (contactType : string)
| OwnershipTransferred (previousOwner newOwner : address).

Record Storage : Type := mkStorage {
  alerts : gmap N Alert;
  touristAlerts : gmap N (list N);
  alertCounter : uint256;
  emergencyContacts : gmap string N;
  contactTypes : list string;
  owner : address
}.

(** Mapping reads, with Solidity's defaults. *)
Definition alertAt (s : Storage) (id : uint256) : Alert :=
  default zeroAlert (alerts s !! id).

Definition alertsOf (s : Storage) (t : address) : list N :=
  default [] (touristAlerts s !! t).

Definition contactOf (s : Storage) (ty : string) : address :=
  default address0 (emergencyContacts s !! ty).

Definition Result (A : Type) : Type := (Revert + A)%type.

(** [bytes(str).length]. *)
Definition byteLength (str : string) : uint256 := N.of_nat (String.length str).

(** The values [i] of [for (uint256 i = 0; i < n; i++)]. *)
Definition indices (n : uint256) : list N := map N.of_nat (seq 0 (N.to_nat n)).

(** A [for] loop over the given index values, threading the loop state. *)
Fixpoint forEach {S : Type} (ids : list N) (body : N -> S -> Result S) (st : S)
  : Result S :=
  match ids with
  | [] => inr st
  | i :: rest =>
      match body i st with
      | inl r => inl r
      | inr st' => forEach rest body st'
      end
  end.

(** Memory arrays: allocation, bounds-checked read and write
    ([Panic(0x32)] out of range). *)
Definition newArray (n : uint256) : list N := repeat 0 (N.to_nat n).

Definition readAt (arr : list N) (i : uint256) : Result N :=
  match arr !! N.to_nat i with
  | Some v => inr v
  | None => inl (Panic 50)
  end.

Definition writeAt (arr : list N) (i : uint256) (v : N) : Result (list N) :=
  if (N.to_nat i <? length arr)%nat then inr (<[N.to_nat i := v]> arr)
  else inl (Panic 50).

(** Checked [x++] and [a - b]. *)
Definition increment (x : uint256) : Result N :=
  if x + 1 <=? MAX_UINT256 then inr (x + 1) else inl (Panic 17).

Definition subtract (a b : uint256) : Result N :=
  if b <=? a then inr (a - b) else inl (Panic 17).

Definition constructor (deployer : address) : Storage :=
  mkStorage ∅ ∅ 0 ∅ ["POLICE"; "AMBULANCE"; "TOURISM_AUTHORITY"] deployer.

(** The [validAlertType] modifier's condition. *)
Definition validAlertType (ty : AlertType) : bool :=
  bool_decide (ty = PANIC) || bool_decide (ty = GEOFENCE) || bool_decide (ty = ANOMALY).

Definition triggerAlert (ty : AlertType) (loc desc : string) (e : Env) (s : Storage)
  : Result (Storage * list Event) :=
  if negb (validAlertType ty) then inl (Error "Invalid alert type") else
  if negb (0 <? byteLength loc) then inl (Error "Location cannot be empty") else
  let alertId := alertCounter s in
  let alerts' :=
    <[alertId := mkAlert (msg_sender e) ty loc (block_timestamp e) true desc]> (alerts s) in
  let touristAlerts' :=
    <[msg_sender e := (alertsOf s (msg_sender e) ++ [alertId])%list]> (touristAlerts s) in
  match increment (alertCounter s) with
  | inl r => inl r
  | inr counter' =>
      inr (mkStorage alerts' touristAlerts' counter' (emergencyContacts s)
                     (contactTypes s) (owner s),
           [AlertTriggered alertId (msg_sender e) ty loc (block_timestamp e) desc])
  end.

Definition resolveAlert (alertId : uint256) (e : Env) (s : Storage)
  : Result (Storage * list Event) :=
  if negb (alertId <? alertCounter s) then inl (Error "Alert does not exist") else
  let alert := alertAt s alertId in
  if negb (isActive alert) then inl (Error "Alert is already resolved") else
  if negb ((msg_sender e =? tourist alert) || (msg_sender e =? owner s))
  then inl (Error "Only tourist or owner can resolve alert") else
  inr (mkStorage (<[alertId := set_isActive false alert]> (alerts s))
                 (touristAlerts s) (alertCounter s) (emergencyContacts s)
                 (contactTypes s) (owner s),
       [AlertResolved alertId (tourist alert) (block_timestamp e)]).

Definition getAlert (alertId : uint256) (s : Storage) : Result Alert :=
  if negb (alertId <? alertCounter s) then inl (Error "Alert does not exist") else
  inr (alertAt s alertId).

Definition getTouristAlerts (t : address) (s : Storage) : Result (list N) :=
  inr (alertsOf s t).

Definition getRecentAlerts (count : uint256) (s : Storage) : Result (list N) :=
  if negb (0 <? count) then inl (Error "Count must be greater than 0") else
  let totalAlerts := alertCounter s in
  let returnCount := if totalAlerts <? count then totalAlerts else count in
  forEach (indices returnCount)
          (fun i recentAlerts =>
             match subtract totalAlerts 1 with
             | inl r => inl r
             | inr t1 =>
                 match subtract t1 i with
                 | inl r => inl r
                 | inr v => writeAt recentAlerts i v
                 end
             end)
          (newArray returnCount).

Definition getActiveAlertsCount (s : Storage) : Result N :=
  forEach (indices (alertCounter s))
          (fun i activeCount =>
             if isActive (alertAt s i) then increment activeCount
             else inr activeCount)
          0.

Definition getAlertsByType (ty : AlertType) (s : Storage) : Result (list N) :=
  match
    forEach (indices (alertCounter s))
            (fun i (st : list N * N) =>
               let (tempAlerts, count) := st in
               if bool_decide (alertType (alertAt s i) = ty) then
                 match writeAt tempAlerts count i with
                 | inl r => inl r
                 | inr tempAlerts' =>
                     match increment count with
                     | inl r => inl r
                     | inr count' => inr (tempAlerts', count')
                     end
                 end
               else inr st)
            (newArray (alertCounter s), 0)
  with
  | inl r => inl r
  | inr (tempAlerts, count) =>
      forEach (indices count)
              (fun i result =>
                 match readAt tempAlerts i with
                 | inl r => inl r
                 | inr v => writeAt result i v
                 end)
              (newArray count)
  end.

Section Hashing.

(** [keccak256(bytes(str))], the hash the contract compares contact
    types by. *)
Variable keccak256 : string -> N.

(** The search loops over [contactTypes], which stop at the first entry
    whose hash equals that of [ty]. *)
Fixpoint listed (types : list string) (ty : string) : bool :=
  match types with
  | [] => false
  | x :: rest => if keccak256 x =? keccak256 ty then true else listed rest ty
  end.

Fixpoint firstIndex (types : list string) (ty : string) (i : nat) : option nat :=
  match types with
  | [] => None
  | x :: rest =>
      if keccak256 x =? keccak256 ty then Some i else firstIndex rest ty (S i)
  end.

(** [contactTypes[i] = contactTypes[contactTypes.length - 1]; contactTypes.pop()]. *)
Definition swapRemove (types : list string) (i : nat) : list string :=
  match types !! (length types - 1)%nat with
  | Some last => take (length types - 1)%nat (<[i := last]> types)
  | None => types
  end.

Definition addEmergencyContact (ty : string) (contact : address) (e : Env) (s : Storage)
  : Result (Storage * list Event) :=
  if negb (msg_sender e =? owner s) then inl (Error "Ownable: caller is not the owner") else
  if negb (negb (contact =? address0)) then inl (Error "Invalid contact address") else
  if negb (0 <? byteLength ty) then inl (Error "Contact type cannot be empty") else
  let contacts' := <[ty := contact]> (emergencyContacts s) in
  let types' := if listed (contactTypes s) ty then contactTypes s
                else (contactTypes s ++ [ty])%list in
  inr (mkStorage (alerts s) (touristAlerts s) (alertCounter s) contacts' types' (owner s),
       [EmergencyContactAdded ty contact]).

Definition removeEmergencyContact (ty : string) (e : Env) (s : Storage)
  : Result (Storage * list Event) :=
  if negb (msg_sender e =? owner s) then inl (Error "Ownable: caller is not the owner") else
  if negb (negb (contactOf s ty =? address0)) then inl (Error "Contact does not exist") else
  let contacts' := delete ty (emergencyContacts s) in
  let types' := match firstIndex (contactTypes s) ty 0 with
                | Some i => swapRemove (contactTypes s) i
                | None => contactTypes s
                end in
  inr (mkStorage (alerts s) (touristAlerts s) (alertCounter s) contacts' types' (owner s),
       [EmergencyContactRemoved ty]).

(** The two functions inherited from [Ownable]. *)
Definition set_owner (o : address) (s : Storage) : Storage :=
  mkStorage (alerts s) (touristAlerts s) (alertCounter s) (emergencyContacts s)
            (contactTypes s) o.

Definition renounceOwnership (e : Env) (s : Storage) : Result (Storage * list Event) :=
  if negb (msg_sender e =? owner s) then inl (Error "Ownable: caller is not the owner") else
  inr (set_owner address0 s, [OwnershipTransferred (owner s) address0]).

Definition transferOwnership (newOwner : address) (e : Env) (s : Storage)
  : Result (Storage * list Event) :=
  if negb (msg_sender e =? owner s) then inl (Error "Ownable: caller is not the owner") else
  if negb (negb (newOwner =? address0))
  then inl (Error "Ownable: new owner is the zero address") else
  inr (set_owner newOwner s, [OwnershipTransferred (owner s) newOwner]).

Inductive Call : Set :=
| TriggerAlert (ty : AlertType) (loc desc : string)
| ResolveAlert (alertId : uint256)
| AddEmergencyContact (ty : string) (contact : address)
| RemoveEmergencyContact (ty : string)
| TransferOwnership (newOwner : address)
| RenounceOwnership.

Definition transact (e : Env) (c : Call) (s : Storage) : Result (Storage * list Event) :=
  match c with
  | TriggerAlert ty loc desc => triggerAlert ty loc desc e s
  | ResolveAlert id => resolveAlert id e s
  | AddEmergencyContact ty a => addEmergencyContact ty a e s
  | RemoveEmergencyContact ty => removeEmergencyContact ty e s
  | TransferOwnership o => transferOwnership o e s
  | RenounceOwnership => renounceOwnership e s
  end.

Definition stateAfter (e : Env) (c : Call) (s : Storage) : Storage :=
  match transact e c s with
  | inr (s', _) => s'
  | inl _ => s
  end.

Fixpoint run (trace : list (Env * Call)) (s : Storage) : Storage :=
  match trace with
  | [] => s
  | (e, c) :: rest => run rest (stateAfter e c s)
  end.

Inductive reachable : Storage -> Prop :=
| reachable_deployed (deployer : address) :
    reachable (constructor deployer)
| reachable_step (e : Env) (c : Call) (s s' : Storage) ev :
    reachable s ->
    transact e c s = inr (s', ev) ->
    reachable s'.

End Hashing.

Definition getContactTypes (s : Storage) : Result (list string) :=
  inr (contactTypes s).

Definition getEmergencyContact (ty : string) (s : Storage) : Result N :=
  inr (contactOf s ty).

Definition getAlertTypeString (ty : AlertType) : string :=
  if bool_decide (ty = PANIC) then "PANIC"
  else if bool_decide (ty = GEOFENCE) then "GEOFENCE"
  else if bool_decide (ty = ANOMALY) then "ANOMALY"
  else "UNKNOWN".

(** The inner loop of getContractStats: is [t] among the first entries
    of [uniqueTourists]?  It stops at the first hit. *)
Fixpoint touristListed (js : list N) (uniqueTourists : list N) (t : address)
  : Result bool :=
  match js with
  | [] => inr false
  | j :: rest =>
      match readAt uniqueTourists j with
      | inl r => inl r
      | inr u => if u =? t then inr true else touristListed rest uniqueTourists t
      end
  end.

(** Returns [(totalAlerts, activeAlerts, totalTourists)]. *)
Definition getContractStats (s : Storage) : Result (N * N * N) :=
  match
    forEach (indices (alertCounter s))
            (fun i (st : N * list N * N) =>
               let '(activeAlerts, uniqueTourists, touristCount) := st in
               match (if isActive (alertAt s i) then increment activeAlerts
                      else inr activeAlerts) with
               | inl r => inl r
               | inr activeAlerts' =>
                   match touristListed (indices touristCount) uniqueTourists
                                       (tourist (alertAt s i)) with
                   | inl r => inl r
                   | inr true => inr (activeAlerts', uniqueTourists, touristCount)
                   | inr false =>
                       match writeAt uniqueTourists touristCount (tourist (alertAt s i)) with
                       | inl r => inl r
                       | inr uniqueTourists' =>
                           match increment touristCount with
                           | inl r => inl r
                           | inr touristCount' =>
                               inr (activeAlerts', uniqueTourists', touristCount')
                           end
                       end
                   end
               end)
            (0, newArray (alertCounter s), 0)
  with
  | inl r => inl r
  | inr (activeAlerts, _, touristCount) => inr (alertCounter s, activeAlerts, touristCount)
  end.

(** The reference values the loops are compared with. *)
Definition activeIds (s : Storage) : list N :=
  filter (fun i => isActive (alertAt s i) = true) (indices (alertCounter s)).

Definition idsOfType (ty : AlertType) (s : Storage) : list N :=
  filter (fun i => alertType (alertAt s i) = ty) (indices (alertCounter s)).

Definition idsOfTourist (t : address) (s : Storage) : list N :=
  filter (fun i => tourist (alertAt s i) = t) (indices (alertCounter s)).

Definition touristsSeen (s : Storage) : list N :=
  map (fun i => tourist (alertAt s i)) (indices (alertCounter s)).

(** A collision-free stand-in for the hash, used in the examples. *)
Definition idealHash (str : string) : N := Npos (encode str).

(** What the alert register keeps true. *)
Definition consistent (s : Storage) : Prop :=
  alertCounter s <= MAX_UINT256
  /\ (forall i, alertCounter s <= i -> alerts s !! i = None)
  /\ (forall i, i < alertCounter s ->
        exists a, alerts s !! i = Some a /\ location a <> "")
  /\ (forall t, alertsOf s t = idsOfTourist t s).

(** What the contact register keeps true. *)
Definition contactsListed (s : Storage) : Prop :=
  NoDup (contactTypes s)
  /\ (forall ty, contactOf s ty <> address0 -> In ty (contactTypes s)).

(** The tourists met so far, in order of first appearance. *)
Definition addNew (acc : list N) (l : list N) : list N :=
  fold_left (fun (acc : list N) (t : N) =>
               if bool_decide (t ∈ acc) then acc else (acc ++ [t])%list) l acc.

(** A register with three alerts by two tourists, the first one resolved,
    and one contact. *)
Definition demo : Storage :=
  run idealHash
      [(accepting tina 100, TriggerAlert PANIC "12.97,77.59" "help");
       (accepting oscar 200, TriggerAlert GEOFENCE "zone 4" "");
       (accepting tina 300, TriggerAlert ANOMALY "12.98,77.60" "no movement");
       (accepting alice 400, ResolveAlert 0);
       (accepting alice 500, AddEmergencyContact "FIRE" 77)]
      (constructor alice).

End EmergencyAlert.

(** ** Storage lemmas *)

Lemma bookingAt_set_booking s id b id' :
  bookingAt (set_booking id b s) id' = if decide (id = id') then b else bookingAt s id'.
Proof.
  unfold bookingAt, set_booking; simpl.
  rewrite lookup_insert. destruct (decide (id = id')); reflexivity.
Qed.

Lemma bookingAt_set_booking_eq s id b :
  bookingAt (set_booking id b s) id = b.
Proof. rewrite bookingAt_set_booking. destruct (decide (id = id)); congruence. Qed.

Lemma bookingAt_set_booking_ne s id b id' :
  id <> id' -> bookingAt (set_booking id b s) id' = bookingAt s id'.
Proof. intros. rewrite bookingAt_set_booking. destruct (decide (id = id')); congruence. Qed.

Lemma bookingAt_set_oracle s a v id :
  bookingAt (set_oracle a v s) id = bookingAt s id.
Proof. reflexivity. Qed.

Lemma bookingAt_set_arbiter s a v id :
  bookingAt (set_arbiter a v s) id = bookingAt s id.
Proof. reflexivity. Qed.

Lemma isArbiter_set_arbiter s a v a' :
  isArbiter (set_arbiter a v s) a' = if decide (a = a') then v else isArbiter s a'.
Proof.
  unfold isArbiter, set_arbiter; simpl.
  rewrite lookup_insert. destruct (decide (a = a')); reflexivity.
Qed.

Lemma bookingAt_constructor d id : bookingAt (constructor d) id = zeroBooking.
Proof. reflexivity. Qed.

(** ** Symbolic execution of contract code *)

Ltac unfold_contract :=
  cbv [transact stateAfter staticcall fresh dispatch
       createBooking verifySLA releaseToOperator refundToTourist
       refundWithPenalty handleTimeout raiseDispute resolveDispute
       authorizeOracle revokeOracle authorizeArbiter revokeArbiter
       transferOwnership renounceOwnership transferOwnership_
       getBooking isTimedOut getTimeRemaining
       onlyAuthorizedOracle onlyArbiter bookingExists validBookingStatus
       onlyOwner nonReentrant booking update_booking
       checked_add checked_mul checked_sub call_value isEntered setEntered
       bind ret revert require sender timestamp sload sstore emit
       storage sent logs entered callee].

Ltac norm :=
  change (negb false) with true; change (negb true) with false;
  rewrite ?bookingAt_set_booking_eq;
  cbn [tourist operator amount depositTime slaDeadline status slaVerified
       bookingId set_status set_slaVerified app].

Ltac branch :=
  match goal with
  | |- context [if ?c then _ else _] =>
      let E := fresh "E" in destruct c eqn:E
  end.

(** Run the contract code in the goal along every path. *)
Ltac exec := unfold_contract; norm; repeat (branch; norm).

(** Turn the boolean tests met along a path into propositions. *)
Ltac props :=
  repeat match goal with
  | H : negb _ = true |- _ => apply negb_true_iff in H
  | H : negb _ = false |- _ => apply negb_false_iff in H
  | H : _ || _ = true |- _ => apply orb_true_iff in H; destruct H
  | H : _ || _ = false |- _ => apply orb_false_iff in H; destruct H
  | H : _ && _ = true |- _ => apply andb_true_iff in H; destruct H
  | H : bool_decide _ = true |- _ => apply bool_decide_eq_true in H
  | H : bool_decide _ = false |- _ => apply bool_decide_eq_false in H
  | H : (_ =? _) = true |- _ => apply N.eqb_eq in H
  | H : (_ =? _) = false |- _ => apply N.eqb_neq in H
  | H : (_ <? _) = true |- _ => apply N.ltb_lt in H
  | H : (_ <? _) = false |- _ => apply N.ltb_ge in H
  | H : (_ <=? _) = true |- _ => apply N.leb_le in H
  | H : (_ <=? _) = false |- _ => apply N.leb_gt in H
  end.

(** Close a path whose status test contradicts what is known. *)
Ltac status_clash :=
  match goal with
  | H : status ?b = _, T : context [status ?b] |- _ =>
      rewrite H in T; (discriminate || contradiction || (simpl in T; congruence))
  end.

(** ** The scenarios evaluate as expected *)

Example booked_b2 :
  bookingAt (booked "b2" 100) "b2"
  = mkBooking tina oscar 100 1000 87400 Pending false "b2".
Proof. vm_compute. reflexivity. Qed.

Example failedSLA_b2 :
  bookingAt (failedSLA "b2" 100) "b2"
  = mkBooking tina oscar 100 1000 87400 SLAFailed true "b2".
Proof. vm_compute. reflexivity. Qed.

Example refundWithPenalty_b2 :
  transact (accepting 9 3000) (RefundWithPenalty "b2") (failedSLA "b2" 100)
  = Success (set_booking "b2" (mkBooking tina oscar 100 1000 87400 Refunded true "b2")
                         (failedSLA "b2" 100))
            [(tina, 100)]
            [Ev_Refunded "b2" tina 100; Ev_PaidOut "b2" oscar 0].
Proof. vm_compute. reflexivity. Qed.

(** ** Frame and path lemmas *)

Lemma frame_other_bookings e c s id :
  targetOf c <> Some id ->
  bookingAt (stateAfter e c s) id = bookingAt s id.
Proof.
  intros Hc.
  destruct c; simpl in Hc; exec;
    rewrite ?bookingAt_set_booking_ne by congruence; reflexivity.
Qed.

Lemma acts_on_terminal_reverts e c s id :
  isTerminal (status (bookingAt s id)) = true ->
  actsOn c id = true ->
  exists r, transact e c s = Reverted r.
Proof.
  intros T Hc. destruct c; simpl in Hc; try discriminate;
    apply bool_decide_eq_true in Hc; subst id0.
  all: exec; props; try status_clash; eauto.
Qed.

Lemma create_existing_reverts e s id op v :
  tourist (bookingAt s id) <> address0 ->
  exists r, transact e (CreateBooking id op v) s = Reverted r.
Proof.
  intros X. exec; props; try congruence; eauto.
Qed.

Lemma stateAfter_reverted e c s r :
  transact e c s = Reverted r -> stateAfter e c s = s.
Proof. unfold stateAfter. intros ->. reflexivity. Qed.

(** ** Properties of the escrow ledger *)

(** C2. Once a booking's status is terminal ([Refunded] or [Paid]),
    every ledger operation on it (verifySLA, releaseToOperator,
    refundToTourist, refundWithPenalty, handleTimeout, raiseDispute,
    resolveDispute) reverts and leaves the storage as it was; moreover no
    call at all, other than a createBooking of that very identifier,
    changes any field of the booking, and when the booking exists no call
    whatsoever does. *)
Theorem terminal_is_final (e : Env) (s : Storage) (id : string) :
  isTerminal (status (bookingAt s id)) = true ->
  (forall c, actsOn c id = true ->
     exists r, transact e c s = Reverted r /\ stateAfter e c s = s)
  /\ (forall c, (forall op v, c <> CreateBooking id op v) ->
        bookingAt (stateAfter e c s) id = bookingAt s id)
  /\ (tourist (bookingAt s id) <> address0 ->
        forall c, bookingAt (stateAfter e c s) id = bookingAt s id).
Proof.
  intros T.
  assert (A : forall c, actsOn c id = true ->
     exists r, transact e c s = Reverted r /\ stateAfter e c s = s).
  { intros c Hc. destruct (acts_on_terminal_reverts e c s id T Hc) as [r Hr].
    exists r. split; [exact Hr | exact (stateAfter_reverted _ _ _ _ Hr)]. }
  assert (B : forall c, (forall op v, c <> CreateBooking id op v) ->
        bookingAt (stateAfter e c s) id = bookingAt s id).
  { intros c Hc.
    destruct (actsOn c id) eqn:Ha.
    - destruct (A c Ha) as (r & _ & ->). reflexivity.
    - apply frame_other_bookings.
      destruct c; simpl in *; try discriminate;
        try (apply bool_decide_eq_false in Ha; congruence).
      intros [= ->]. eapply Hc; reflexivity. }
  split; [exact A|]. split; [exact B|].
  intros X c.
  destruct (decide (targetOf c = Some id)) as [Hc|Hc];
    [|apply frame_other_bookings; exact Hc].
  destruct c; simpl in Hc; try discriminate; injection Hc as ->;
    try (apply B; discriminate).
  destruct (create_existing_reverts e s id op msg_value X) as [r Hr].
  rewrite (stateAfter_reverted _ _ _ _ Hr). reflexivity.
Qed.

Lemma terminal_is_final_witness :
  isTerminal (status (bookingAt refunded_b2 "b2")) = true
  /\ (exists r, transact (accepting tina 4000) (RaiseDispute "b2") refunded_b2 = Reverted r
               /\ stateAfter (accepting tina 4000) (RaiseDispute "b2") refunded_b2 = refunded_b2).
Proof.
  assert (T : isTerminal (status (bookingAt refunded_b2 "b2")) = true)
    by (vm_compute; reflexivity).
  split; [exact T|].
  apply (proj1 (terminal_is_final (accepting tina 4000) refunded_b2 "b2" T)).
  vm_compute; reflexivity.
Defined.

(** The penalty never exceeds the escrowed amount, so the subtraction in
    [refundWithPenalty] cannot underflow. *)
Lemma penalty_le_amount (a : N) :
  a * PENALTY_PERCENTAGE / BASIS_POINTS <= a.
Proof.
  unfold PENALTY_PERCENTAGE, BASIS_POINTS.
  transitivity (a * 10000 / 10000).
  - apply N.Div0.div_le_mono. lia.
  - rewrite N.div_mul by lia. lia.
Qed.

Lemma transact_stateAfter e c s s' tr ev :
  transact e c s = Success s' tr ev -> stateAfter e c s = s'.
Proof. unfold stateAfter. intros ->. reflexivity. Qed.

(** C1. Whenever a transaction takes a booking from a non-terminal
    status to a terminal one ([Refunded] or [Paid]), the values it
    transfers sum to exactly the booking's amount, and the amount itself
    is untouched.  In particular [refundWithPenalty] sends
    [penalty = amount * PENALTY_PERCENTAGE / BASIS_POINTS] (rounded down)
    to the operator and [amount - penalty] to the tourist, the two parts
    sum to the amount whatever the amount is, and the call does succeed
    on a verified [SLAFailed] booking whose transfers are accepted. *)
Theorem payout_conservation (e : Env) (s : Storage) (id : string) :
  let b := bookingAt s id in
  let penalty := amount b * PENALTY_PERCENTAGE / BASIS_POINTS in
  (forall c s' tr ev,
      transact e c s = Success s' tr ev ->
      isTerminal (status b) = false ->
      isTerminal (status (bookingAt s' id)) = true ->
      totalPaid tr = amount b /\ amount (bookingAt s' id) = amount b)
  /\ penalty + (amount b - penalty) = amount b
  /\ totalPaid (penaltySplit b) = amount b
  /\ (forall s' tr ev,
        transact e (RefundWithPenalty id) s = Success s' tr ev ->
        tr = penaltySplit b /\ status (bookingAt s' id) = Refunded)
  /\ (tourist b <> address0 -> status b = SLAFailed -> slaVerified b = true ->
      amount b * PENALTY_PERCENTAGE <= MAX_UINT256 ->
      (forall a v, call_succeeds e a v = true) ->
      transact e (RefundWithPenalty id) s
      = Success (set_booking id (set_status Refunded b) s)
                (penaltySplit b)
                [Ev_Refunded id (tourist b) (amount b - penalty);
                 Ev_PaidOut id (operator b) penalty]).
Proof.
  intros b penalty.
  pose proof (penalty_le_amount (amount b)) as Hle. fold penalty in Hle.
  split; [|split; [|split; [|split]]].
  - intros c s' tr ev H NT T.
    destruct (decide (targetOf c = Some id)) as [Hc|Hc].
    + destruct c; simpl in Hc; try discriminate; injection Hc as ->.
      all: revert H T; subst b penalty; exec; intros H T; try discriminate;
        injection H as <- <- <-; revert T; norm; intros T; props;
        try status_clash; try discriminate;
        unfold totalPaid; simpl; split; try reflexivity; try lia.
      all: try (destruct slaPassed; revert T; norm; discriminate).
      all: set (p := _ / BASIS_POINTS) in *; clearbody p; lia.
    + apply transact_stateAfter in H. subst s'.
      rewrite frame_other_bookings in T by exact Hc.
      subst b. congruence.
  - lia.
  - unfold penaltySplit. fold b penalty.
    destruct (0 <? penalty) eqn:P, (0 <? amount b - penalty) eqn:R;
      props; unfold totalPaid; simpl; lia.
  - intros s' tr ev. unfold penaltySplit. subst b penalty.
    exec; intros H; try discriminate; injection H as <- <- <-;
      norm; split; reflexivity.
  - intros X St V Ov Acc. unfold penaltySplit. subst b penalty.
    exec; props; try congruence; try lia; try status_clash;
      try (rewrite Acc in *; discriminate).
    all: reflexivity.
Qed.

(** A failed-SLA booking of 5000: 5 go to the operator, 4995 to the tourist. *)
Lemma payout_conservation_witness :
  transact (accepting 9 3000) (RefundWithPenalty "b5") (failedSLA "b5" 5000)
  = Success (set_booking "b5"
               (set_status Refunded (bookingAt (failedSLA "b5" 5000) "b5"))
               (failedSLA "b5" 5000))
            [(oscar, 5); (tina, 4995)]
            [Ev_Refunded "b5" tina 4995; Ev_PaidOut "b5" oscar 5]
  /\ totalPaid [(oscar, 5); (tina, 4995)] = 5000.
Proof.
  destruct (payout_conservation (accepting 9 3000) (failedSLA "b5" 5000) "b5")
    as (P1 & _ & _ & _ & P5).
  assert (R := P5 ltac:(vm_compute; discriminate) ltac:(vm_compute; reflexivity)
                  ltac:(vm_compute; reflexivity) ltac:(vm_compute; discriminate)
                  ltac:(reflexivity)).
  split.
  - exact R.
  - exact (proj1 (P1 _ _ _ _ R ltac:(vm_compute; reflexivity)
                     ltac:(vm_compute; reflexivity))).
Defined.

(** C3. For a booking that exists, is [Pending] and is not yet verified:
    an authorized oracle's verifySLA succeeds at every time up to and
    including the deadline and reverts with "SLA deadline passed"
    (DeadlinePassed) strictly after it; handleTimeout succeeds only
    strictly after the deadline (and does succeed then, when the refund
    transfer is accepted) and reverts with "SLA deadline not reached"
    (DeadlineNotReached) at or before it; so no instant admits both. *)
Theorem deadline_tie_break (s : Storage) (id : string) :
  let b := bookingAt s id in
  tourist b <> address0 -> status b = Pending -> slaVerified b = false ->
  (forall e passed,
      isOracle s (msg_sender e) = true ->
      block_timestamp e <= slaDeadline b ->
      exists s' ev,
        transact e (VerifySLA id passed) s = Success s' [] ev
        /\ bookingAt s' id
           = set_status (if passed then SLAPassed else SLAFailed)
                        (set_slaVerified true b))
  /\ (forall e passed,
        isOracle s (msg_sender e) = true ->
        slaDeadline b < block_timestamp e ->
        transact e (VerifySLA id passed) s = Reverted (Error "SLA deadline passed")
        /\ errorKind (Error "SLA deadline passed") = Some DeadlinePassed)
  /\ (forall e s' tr ev,
        transact e (HandleTimeout id) s = Success s' tr ev ->
        slaDeadline b < block_timestamp e)
  /\ (forall e,
        block_timestamp e <= slaDeadline b ->
        transact e (HandleTimeout id) s = Reverted (Error "SLA deadline not reached")
        /\ errorKind (Error "SLA deadline not reached") = Some DeadlineNotReached)
  /\ (forall e,
        slaDeadline b < block_timestamp e ->
        call_succeeds e (tourist b) (amount b) = true ->
        transact e (HandleTimeout id) s
        = Success (set_booking id (set_status Refunded b) s)
                  [(tourist b, amount b)]
                  [Ev_Refunded id (tourist b) (amount b)])
  /\ (forall e1 e2 passed,
        block_timestamp e1 = block_timestamp e2 ->
        ~ ((exists s' tr ev, transact e1 (VerifySLA id passed) s = Success s' tr ev)
           /\ (exists s' tr ev, transact e2 (HandleTimeout id) s = Success s' tr ev))).
Proof.
  intros b X P V. subst b.
  assert (HT : forall e s' tr ev,
             transact e (HandleTimeout id) s = Success s' tr ev ->
             slaDeadline (bookingAt s id) < block_timestamp e).
  { intros e s' tr ev. exec; intros H; try discriminate. props. assumption. }
  split; [|split; [|split; [|split; [|split]]]].
  - intros e passed O D.
    destruct passed; exec; props; try congruence; try lia; try status_clash.
    all: eexists _, _; (split; [reflexivity|]); norm; reflexivity.
  - intros e passed O D. split; [|reflexivity].
    exec; props; try congruence; try lia; try status_clash.
  - exact HT.
  - intros e D. split; [|reflexivity].
    exec; props; try congruence; try lia; try status_clash.
  - intros e D A.
    exec; props; try congruence; try lia; try status_clash.
  - intros e1 e2 passed Ht ((s1 & tr1 & ev1 & H1) & (s2 & tr2 & ev2 & H2)).
    apply HT in H2.
    revert H1. exec; intros; try discriminate. all: props; lia.
Qed.

Lemma deadline_tie_break_witness :
  (exists s' ev,
      transact (accepting olivia 87400) (VerifySLA "b1" true) (booked "b1" 100)
      = Success s' [] ev
      /\ bookingAt s' "b1" = mkBooking tina oscar 100 1000 87400 SLAPassed true "b1")
  /\ transact (accepting olivia 87401) (VerifySLA "b1" true) (booked "b1" 100)
     = Reverted (Error "SLA deadline passed")
  /\ transact (accepting 9 87400) (HandleTimeout "b1") (booked "b1" 100)
     = Reverted (Error "SLA deadline not reached").
Proof.
  destruct (deadline_tie_break (booked "b1" 100) "b1"
              ltac:(vm_compute; discriminate) ltac:(vm_compute; reflexivity)
              ltac:(vm_compute; reflexivity))
    as (V1 & V2 & _ & T2 & _ & _).
  split; [|split].
  - exact (V1 (accepting olivia 87400) true ltac:(vm_compute; reflexivity)
              ltac:(vm_compute; discriminate)).
  - exact (proj1 (V2 (accepting olivia 87401) true ltac:(vm_compute; reflexivity)
                     ltac:(vm_compute; reflexivity))).
  - exact (proj1 (T2 (accepting 9 87400) ltac:(vm_compute; discriminate))).
Defined.

(** C5. createBooking reverts with "Deposit amount must be greater than
    0" (InvalidAmount) when the attached amount is zero; with an
    InvalidParty message when the operator is the caller or the null
    address; with "Booking ID already exists" (DuplicateId) when the
    identifier is taken; each of these conditions alone makes the call
    fail, and when several hold the error reported is the first in this
    order.  On success the stored booking is [Pending] and unverified,
    carries the caller, the operator and the amount, and its deadline is
    the creation time plus [SLA_TIMEOUT_HOURS = 24] hours. *)
Theorem createBooking_contract (e : Env) (s : Storage) (id : string)
        (op : address) (v : uint256) :
  let me := msg_sender e in
  let now := block_timestamp e in
  let call := CreateBooking id op v in
  (v = 0 ->
     transact e call s = Reverted (Error "Deposit amount must be greater than 0")
     /\ errorKind (Error "Deposit amount must be greater than 0") = Some InvalidAmount)
  /\ (0 < v -> op = me \/ op = address0 ->
      exists msg, transact e call s = Reverted (Error msg)
                  /\ errorKind (Error msg) = Some InvalidParty)
  /\ (0 < v -> op <> me -> op <> address0 ->
      tourist (bookingAt s id) <> address0 ->
      transact e call s = Reverted (Error "Booking ID already exists")
      /\ errorKind (Error "Booking ID already exists") = Some DuplicateId)
  /\ (v = 0 \/ op = me \/ op = address0 \/ tourist (bookingAt s id) <> address0 ->
      exists r, transact e call s = Reverted r /\ stateAfter e call s = s)
  /\ (forall s' tr ev,
        transact e call s = Success s' tr ev ->
        bookingAt s' id
        = mkBooking me op v now (now + SLA_TIMEOUT_HOURS * hours) Pending false id
        /\ SLA_TIMEOUT_HOURS = 24
        /\ tr = [] /\ ev = [Ev_DepositMade id me op v])
  /\ (0 < v -> op <> me -> op <> address0 ->
      tourist (bookingAt s id) = address0 ->
      now + SLA_TIMEOUT_HOURS * hours <= MAX_UINT256 ->
      transact e call s
      = Success (set_booking id
                   (mkBooking me op v now (now + SLA_TIMEOUT_HOURS * hours)
                              Pending false id) s)
                [] [Ev_DepositMade id me op v]).
Proof.
  intros me now call. subst me now call.
  split; [|split; [|split; [|split; [|split]]]].
  - intros ->. split; reflexivity.
  - intros Hv [->| ->]; exec; props; try congruence; try lia; eauto.
  - intros Hv H1 H2 H3. split; [|reflexivity].
    exec; props; try congruence; lia.
  - intros H.
    assert (exists r, transact e (CreateBooking id op v) s = Reverted r) as [r Hr].
    { exec; props; eauto; exfalso; destruct H as [H|[H|[H|H]]];
        try congruence; lia. }
    exists r. split; [exact Hr | exact (stateAfter_reverted _ _ _ _ Hr)].
  - intros s' tr ev. exec; intros H; try discriminate.
    injection H as <- <- <-. norm.
    rewrite N.mul_1_l. repeat split; reflexivity.
  - intros Hv H1 H2 H3 H4.
    exec; props; try congruence; try lia.
    rewrite N.mul_1_l. reflexivity.
Qed.

Lemma createBooking_contract_witness :
  transact (accepting tina 1000) (CreateBooking "b1" oscar 0) deployed
  = Reverted (Error "Deposit amount must be greater than 0")
  /\ (exists msg,
        transact (accepting tina 1000) (CreateBooking "b1" tina 100) deployed
        = Reverted (Error msg)
        /\ errorKind (Error msg) = Some InvalidParty)
  /\ transact (accepting 7 5000) (CreateBooking "b1" oscar 100) (booked "b1" 100)
     = Reverted (Error "Booking ID already exists")
  /\ transact (accepting tina 1000) (CreateBooking "b1" oscar 100) deployed
     = Success (set_booking "b1"
                  (mkBooking tina oscar 100 1000 (1000 + SLA_TIMEOUT_HOURS * hours)
                             Pending false "b1") deployed)
               [] [Ev_DepositMade "b1" tina oscar 100].
Proof.
  split; [|split; [|split]].
  - exact (proj1 (proj1 (createBooking_contract (accepting tina 1000) deployed
                           "b1" oscar 0) eq_refl)).
  - destruct (createBooking_contract (accepting tina 1000) deployed "b1" tina 100)
      as (_ & P & _).
    exact (P ltac:(vm_compute; reflexivity) ltac:(left; reflexivity)).
  - destruct (createBooking_contract (accepting 7 5000) (booked "b1" 100) "b1" oscar 100)
      as (_ & _ & P & _).
    exact (proj1 (P ltac:(vm_compute; reflexivity) ltac:(vm_compute; discriminate)
                    ltac:(vm_compute; discriminate) ltac:(vm_compute; discriminate))).
  - destruct (createBooking_contract (accepting tina 1000) deployed "b1" oscar 100)
      as (_ & _ & _ & _ & _ & P).
    exact (P ltac:(vm_compute; reflexivity) ltac:(vm_compute; discriminate)
             ltac:(vm_compute; discriminate) ltac:(vm_compute; reflexivity)
             ltac:(vm_compute; discriminate)).
Defined.

(** ** Invariants of reachable states *)

Lemma reachable_stateAfter e c s :
  reachable s -> reachable (stateAfter e c s).
Proof.
  intros R. unfold stateAfter.
  destruct (transact e c s) as [s' tr ev|r] eqn:H.
  - exact (reachable_step e c s s' tr ev R H).
  - exact R.
Qed.

Lemma reachable_run trace s :
  reachable s -> reachable (run trace s).
Proof.
  revert s. induction trace as [|[e c] rest IH]; intros s R; simpl.
  - exact R.
  - apply IH, reachable_stateAfter, R.
Qed.

Lemma pendingUnverified_step e c s :
  pendingUnverified s -> pendingUnverified (stateAfter e c s).
Proof.
  intros I id.
  destruct (decide (targetOf c = Some id)) as [Hc|Hc].
  - specialize (I id). revert I.
    destruct c; simpl in Hc; try discriminate; injection Hc as ->.
    all: exec; norm; intros I P; try specialize (I P); congruence.
  - rewrite frame_other_bookings by exact Hc. apply I.
Qed.

Lemma pendingUnverified_reachable s :
  reachable s -> pendingUnverified s.
Proof.
  induction 1 as [d|e c s s' tr ev R IH H].
  - intros id _. reflexivity.
  - apply transact_stateAfter in H. subst s'.
    apply pendingUnverified_step, IH.
Qed.

(** Only verifySLA turns [slaVerified] on, and it leaves [Pending] at once. *)
Lemma verified_only_by_verifySLA e c s s' tr ev id :
  transact e c s = Success s' tr ev ->
  slaVerified (bookingAt s id) = false ->
  slaVerified (bookingAt s' id) = true ->
  exists p, c = VerifySLA id p
            /\ status (bookingAt s id) = Pending
            /\ status (bookingAt s' id) = (if p then SLAPassed else SLAFailed).
Proof.
  intros H F T.
  destruct (decide (targetOf c = Some id)) as [Hc|Hc].
  - destruct c; simpl in Hc; try discriminate; injection Hc as ->.
    all: revert H T; exec; intros H T; try discriminate;
      injection H as <- <- <-; revert T; norm; intros T; try congruence.
    all: props; eexists; split; [reflexivity|]; norm; split; congruence.
  - apply transact_stateAfter in H. subst s'.
    rewrite frame_other_bookings in T by exact Hc. congruence.
Qed.

(** C10. In every reachable state a [Pending] booking has
    [slaVerified = false]; the flag is set by verifySLA only, on a
    [Pending] booking, in the same step that moves the status to
    [SLAPassed] or [SLAFailed]. *)
Theorem pending_means_unverified :
  (forall s, reachable s ->
     forall id, status (bookingAt s id) = Pending ->
                slaVerified (bookingAt s id) = false)
  /\ (forall e c s s' tr ev id,
        transact e c s = Success s' tr ev ->
        slaVerified (bookingAt s id) = false ->
        slaVerified (bookingAt s' id) = true ->
        exists p, c = VerifySLA id p
                  /\ status (bookingAt s id) = Pending
                  /\ status (bookingAt s' id) = (if p then SLAPassed else SLAFailed)).
Proof.
  split.
  - exact pendingUnverified_reachable.
  - exact verified_only_by_verifySLA.
Qed.

Lemma reachable_booked id v : reachable (booked id v).
Proof.
  unfold booked, deployed.
  do 2 apply reachable_stateAfter. apply reachable_deployed.
Qed.

Lemma pending_means_unverified_witness :
  status (bookingAt (booked "b1" 100) "b1") = Pending
  /\ slaVerified (bookingAt (booked "b1" 100) "b1") = false.
Proof.
  assert (P : status (bookingAt (booked "b1" 100) "b1") = Pending)
    by (vm_compute; reflexivity).
  split; [exact P|].
  exact (proj1 pending_means_unverified (booked "b1" 100)
               (reachable_booked "b1" 100) "b1" P).
Defined.

(** ** Places where the contract departs from its documentation *)

(** The penalty the code computes is a thousandth of the amount: the
    constant [PENALTY_PERCENTAGE = 10] is divided by [BASIS_POINTS]. *)
Lemma penalty_is_one_thousandth (a : N) :
  a * PENALTY_PERCENTAGE / BASIS_POINTS = a / 1000.
Proof.
  unfold PENALTY_PERCENTAGE, BASIS_POINTS.
  change 10000 with (1000 * 10).
  apply N.Div0.div_mul_cancel_r. lia.
Qed.

(** C4. Evaluation of refundWithPenalty on a verified [SLAFailed]
    booking of 100: the code computes a penalty of [100 * 10 / 10000 = 0],
    transfers nothing to the operator and all 100 to the tourist, and sets
    the status to [Refunded]; a 10% penalty would have been 10 and 90.
    For an amount of 7 the penalty is 0 and all 7 go to the tourist. *)
Theorem refundWithPenalty_on_100 :
  bookingAt (failedSLA "b2" 100) "b2"
  = mkBooking tina oscar 100 1000 87400 SLAFailed true "b2"
  /\ transact (accepting 9 3000) (RefundWithPenalty "b2") (failedSLA "b2" 100)
     = Success (set_booking "b2" (mkBooking tina oscar 100 1000 87400 Refunded true "b2")
                            (failedSLA "b2" 100))
               [(tina, 100)]
               [Ev_Refunded "b2" tina 100; Ev_PaidOut "b2" oscar 0]
  /\ penaltySplit (bookingAt (failedSLA "b2" 100) "b2") <> [(oscar, 10); (tina, 90)]
  /\ transact (accepting 9 3000) (RefundWithPenalty "b7") (failedSLA "b7" 7)
     = Success (set_booking "b7" (mkBooking tina oscar 7 1000 87400 Refunded true "b7")
                            (failedSLA "b7" 7))
               [(tina, 7)]
               [Ev_Refunded "b7" tina 7; Ev_PaidOut "b7" oscar 0].
Proof.
  split; [|split; [|split]]; vm_compute; try reflexivity; discriminate.
Qed.

(** In a state where [Pending] bookings are unverified (every reachable
    state), handleTimeout on a verified booking stops at the status
    modifier; its own "SLA already verified" check is never the one that
    fails. *)
Lemma handleTimeout_verified e s id :
  pendingUnverified s ->
  slaVerified (bookingAt s id) = true ->
  tourist (bookingAt s id) <> address0 ->
  transact e (HandleTimeout id) s = Reverted (Error "Invalid booking status").
Proof.
  intros I V X. specialize (I id).
  exec; props; try congruence.
  all: specialize (I ltac:(assumption)); congruence.
Qed.

Lemma handleTimeout_never_AlreadyVerified e s id :
  reachable s ->
  transact e (HandleTimeout id) s <> Reverted (Error "SLA already verified").
Proof.
  intros R. pose proof (pendingUnverified_reachable s R id) as I.
  exec; try discriminate.
  props. specialize (I ltac:(assumption)). congruence.
Qed.

(** C6. Evaluation of handleTimeout after the deadline on a booking
    whose verification was recorded: the call reverts with "Invalid
    booking status" (InvalidState), not with "SLA already verified"
    (AlreadyVerified). *)
Theorem handleTimeout_after_verification :
  bookingAt (passedSLA "b1" 100) "b1"
  = mkBooking tina oscar 100 1000 87400 SLAPassed true "b1"
  /\ transact (accepting 9 87401) (HandleTimeout "b1") (passedSLA "b1" 100)
     = Reverted (Error "Invalid booking status")
  /\ errorKind (Error "Invalid booking status") = Some InvalidState
  /\ errorKind (Error "SLA already verified") = Some AlreadyVerified.
Proof.
  split; [|split; [|split]]; vm_compute; reflexivity.
Qed.

Lemma views_are_pure id :
  pureExec (getBooking id) /\ pureExec (isTimedOut id) /\ pureExec (getTimeRemaining id).
Proof.
  repeat split; intros e w; exec; reflexivity.
Qed.

Lemma getBooking_result e s id :
  staticcall (getBooking id) e s
  = if tourist (bookingAt s id) =? address0
    then inl (Error "Booking does not exist")
    else inr (bookingAt s id).
Proof. exec; simpl in *; congruence. Qed.

Lemma isTimedOut_result e s id :
  staticcall (isTimedOut id) e s
  = inr ((slaDeadline (bookingAt s id) <? block_timestamp e)
         && negb (slaVerified (bookingAt s id))).
Proof. reflexivity. Qed.

Lemma getTimeRemaining_result e s id :
  staticcall (getTimeRemaining id) e s
  = inr (if slaDeadline (bookingAt s id) <=? block_timestamp e then 0
         else slaDeadline (bookingAt s id) - block_timestamp e).
Proof. exec; props; try reflexivity; lia. Qed.

(** C7. Evaluation of the three view functions on an identifier that
    was never booked: getBooking reverts with "Booking does not exist"
    (NotFound), but isTimedOut returns [true] and getTimeRemaining
    returns [0] instead of failing. *)
Theorem views_on_unknown_id :
  bookingAt deployed "ghost" = zeroBooking
  /\ staticcall (getBooking "ghost") (accepting 9 5000) deployed
     = inl (Error "Booking does not exist")
  /\ errorKind (Error "Booking does not exist") = Some NotFound
  /\ staticcall (isTimedOut "ghost") (accepting 9 5000) deployed = inr true
  /\ staticcall (getTimeRemaining "ghost") (accepting 9 5000) deployed = inr 0.
Proof.
  split; [|split; [|split; [|split]]]; vm_compute; reflexivity.
Qed.

(** ** Atomicity *)

(** ** Calls made from inside a transfer *)

(** While the guard is set, a guarded function refuses to start; any
    other function does what it does as a transaction of its own, and
    transfers nothing. *)
Lemma nested_call e c s :
  match dispatch c e (mkWorld s [] [] true (fun _ _ _ st => (st, []))) with
  | Continue _ w =>
      guarded c = false /\ transact e c s = Success (storage w) [] (logs w)
  | Abort _ _ => guarded c = true \/ exists x, transact e c s = Reverted x
  end.
Proof.
  destruct c; exec; simpl; eauto.
Qed.

Lemma settled_step e c s id :
  isTerminal (status (bookingAt s id)) = true ->
  guarded c = false ->
  bookingAt (stateAfter e c s) id = bookingAt s id.
Proof.
  intros T G.
  destruct (decide (targetOf c = Some id)) as [Hc|Hc];
    [|apply frame_other_bookings; exact Hc].
  destruct c; simpl in Hc, G; try discriminate; injection Hc as ->.
  all: match goal with
       | |- bookingAt (stateAfter _ ?c _) _ = _ =>
           destruct (acts_on_terminal_reverts e c s id T) as [r Hr];
             [simpl; apply bool_decide_eq_true; reflexivity|];
             rewrite (stateAfter_reverted _ _ _ _ Hr); reflexivity
       end.
Qed.

Lemma reenter_run now calls s :
  fst (reenter now true calls s) = run (landing now calls) s.
Proof.
  revert s. induction calls as [|[who c] rest IH]; intros s; [reflexivity|].
  pose proof (nested_call (nested now who) c s) as K.
  cbn [reenter landing].
  destruct (dispatch c (nested now who) _) as [[] w|x w].
  - destruct K as [G H]. rewrite G. cbn [run].
    unfold stateAfter. rewrite H. rewrite <- IH.
    destruct (reenter now true rest (storage w)). reflexivity.
  - destruct (guarded c) eqn:G; [apply IH|].
    destruct K as [K|[y H]]; [discriminate|].
    cbn [run]. unfold stateAfter. rewrite H. apply IH.
Qed.

Lemma landing_unguarded now calls :
  Forall (fun ec => guarded (snd ec) = false) (landing now calls).
Proof.
  induction calls as [|[who c] rest IH]; simpl; [constructor|].
  destruct (guarded c) eqn:G; [exact IH|]. constructor; [exact G | exact IH].
Qed.

Lemma settled_run trace s id :
  Forall (fun ec => guarded (snd ec) = false) trace ->
  isTerminal (status (bookingAt s id)) = true ->
  bookingAt (run trace s) id = bookingAt s id.
Proof.
  revert s. induction trace as [|[e c] rest IH]; intros s F T; [reflexivity|].
  apply Forall_cons in F. destruct F as [G F]. cbn [run].
  pose proof (settled_step e c s id T G) as K.
  rewrite IH; [exact K | exact F | rewrite K; exact T].
Qed.

(** A booking that is already settled when a transfer is made is the
    same when the transfer returns, whatever the recipient did. *)
Lemma reenter_settled now calls s s1 ev1 id :
  reenter now true calls s = (s1, ev1) ->
  isTerminal (status (bookingAt s id)) = true ->
  bookingAt s1 id = bookingAt s id.
Proof.
  intros R T. pose proof (reenter_run now calls s) as K.
  rewrite R in K. simpl in K. subst s1.
  apply settled_run; [apply landing_unguarded | exact T].
Qed.

Ltac settle :=
  repeat first
    [ rewrite bookingAt_set_booking_eq
    | match goal with
      | R : reenter _ true _ _ = (?s1, _) |- context [bookingAt ?s1 ?id] =>
          rewrite (reenter_settled _ _ _ _ _ id R) by (settle; reflexivity)
      end ].

Ltac callback :=
  match goal with
  | |- context [reenter ?n ?l ?cs ?st] =>
      let s1 := fresh "s" in
      let ev1 := fresh "ev" in
      let R := fresh "R" in
      destruct (reenter n l cs st) as [s1 ev1] eqn:R; settle
  end.

Ltac unfold_with :=
  cbv [transactWith stateAfterWith during]; unfold_contract.

Ltac execWith :=
  unfold_with; norm; repeat (first [branch | callback]; norm).

Lemma transactWith_quiet e c s : transactWith quiet e c s = transact e c s.
Proof. reflexivity. Qed.

Lemma checks_precede_effects r e c s x w' :
  dispatch c e (during r e s) = Abort x w' ->
  duringPayout x = false ->
  storage w' = s /\ sent w' = [] /\ logs w' = [].
Proof.
  destruct c; execWith; intros H; try discriminate;
    injection H as <- <-; intros D; try (repeat split; reflexivity);
    vm_compute in D; discriminate.
Qed.

Lemma success_pays_dues r e c s s' tr ev :
  transactWith r e c s = Success s' tr ev ->
  tr = dues c s.
Proof.
  destruct c; execWith; intros H; try discriminate; injection H as <- <- <-;
    cbn [dues]; unfold penaltySplit;
    repeat match goal with E : (0 <? _) = _ |- _ => rewrite E; clear E end;
    reflexivity.
Qed.

Lemma success_only_accepted_transfers r e c s s' tr ev :
  transactWith r e c s = Success s' tr ev ->
  Forall (fun p => call_succeeds e (fst p) (snd p) = true) tr.
Proof.
  destruct c; execWith; intros H; try discriminate; injection H as <- <- <-;
    repeat constructor; assumption.
Qed.

Lemma refused_due_reverts r e c s :
  Exists (refused e) (dues c s) ->
  exists x, transactWith r e c s = Reverted x.
Proof.
  unfold refused.
  destruct c; cbn [dues]; unfold penaltySplit; intros X;
    try (apply Exists_nil in X; contradiction).
  all: execWith; eauto; exfalso.
  all: repeat match goal with E : (0 <? _) = _ |- _ => rewrite E in X; clear E end.
  all: cbn [app] in X;
    repeat (apply Exists_cons in X; destruct X as [X|X]; [cbn [fst snd] in X; congruence|]);
    apply Exists_nil in X; exact X.
Qed.

Lemma stateAfterWith_reverted r e c s x :
  transactWith r e c s = Reverted x -> stateAfterWith r e c s = s.
Proof. unfold stateAfterWith. intros ->. reflexivity. Qed.

(** C8. Every operation is all-or-nothing, whatever the recipients of
    its transfers do.  If a recipient refuses a transfer the operation
    owes, the call fails; a call that fails (a refused transfer, a failed
    check, an arithmetic panic) commits nothing, so every booking, role
    and the owner are exactly as before; a failure of any check occurs
    before the call has written, sent or logged anything; and a call
    that succeeds has made every transfer it owes, in full and each
    accepted, so no payout is ever partial. *)
Theorem all_or_nothing (r : Reaction) (e : Env) (c : Call) (s : Storage) :
  (Exists (refused e) (dues c s) ->
     exists x, transactWith r e c s = Reverted x /\ stateAfterWith r e c s = s)
  /\ (forall x, transactWith r e c s = Reverted x ->
        stateAfterWith r e c s = s
        /\ forall id, bookingAt (stateAfterWith r e c s) id = bookingAt s id)
  /\ (forall x w',
        dispatch c e (during r e s) = Abort x w' ->
        transactWith r e c s = Reverted x
        /\ (duringPayout x = false ->
            storage w' = s /\ sent w' = [] /\ logs w' = []))
  /\ (forall s' tr ev,
        transactWith r e c s = Success s' tr ev ->
        tr = dues c s
        /\ Forall (fun p => call_succeeds e (fst p) (snd p) = true) tr)
  /\ transactWith quiet e c s = transact e c s.
Proof.
  split; [|split; [|split; [|split]]].
  - intros X. destruct (refused_due_reverts r e c s X) as [x Hx].
    exists x. split; [exact Hx | exact (stateAfterWith_reverted _ _ _ _ _ Hx)].
  - intros x Hx. rewrite (stateAfterWith_reverted _ _ _ _ _ Hx).
    split; reflexivity.
  - intros x w' H. split.
    + unfold transactWith. rewrite H. reflexivity.
    + exact (checks_precede_effects r e c s x w' H).
  - intros s' tr ev H. split.
    + exact (success_pays_dues r e c s s' tr ev H).
    + exact (success_only_accepted_transfers r e c s s' tr ev H).
  - reflexivity.
Qed.

Lemma all_or_nothing_witness :
  exists x,
    transactWith meddling (mkEnv 9 3000 (fun a _ => negb (a =? tina)))
                 (RefundWithPenalty "b5") (failedSLA "b5" 5000) = Reverted x
    /\ stateAfterWith meddling (mkEnv 9 3000 (fun a _ => negb (a =? tina)))
                      (RefundWithPenalty "b5") (failedSLA "b5" 5000)
       = failedSLA "b5" 5000.
Proof.
  apply (proj1 (all_or_nothing meddling (mkEnv 9 3000 (fun a _ => negb (a =? tina)))
                               (RefundWithPenalty "b5") (failedSLA "b5" 5000))).
  apply Exists_cons_tl, Exists_cons_hd. reflexivity.
Defined.

(** The write to [status] precedes the transfer, so a failed transfer
    aborts in a world where the booking already reads [Paid]; the revert
    is what restores [SLAPassed]. *)
Example release_aborts_after_write :
  exists w',
    dispatch (ReleaseToOperator "b1") (rejecting 9 3000) (fresh (passedSLA "b1" 100))
    = Abort (Error "Transfer to operator failed") w'
    /\ status (bookingAt (storage w') "b1") = Paid.
Proof. eexists. split; vm_compute; reflexivity. Qed.

(** When the tourist refuses the refund, the penalty has already gone
    to the operator; the revert takes it back with everything else. *)
Example penalty_unwinds_with_refund :
  match dispatch (RefundWithPenalty "b5") (mkEnv 9 3000 (fun a _ => negb (a =? tina)))
                 (during meddling (mkEnv 9 3000 (fun a _ => negb (a =? tina)))
                         (failedSLA "b5" 5000)) with
  | Abort x w' =>
      x = Error "Refund transfer to tourist failed"
      /\ sent w' = [(oscar, 5)]
      /\ status (bookingAt (storage w') "b5") = Refunded
  | Continue _ _ => False
  end
  /\ stateAfterWith meddling (mkEnv 9 3000 (fun a _ => negb (a =? tina)))
                    (RefundWithPenalty "b5") (failedSLA "b5" 5000)
     = failedSLA "b5" 5000.
Proof. split; [vm_compute; repeat split | vm_compute; reflexivity]. Qed.

(** ** The owner and the arbiter registry *)

(** Only [transferOwnership] and [renounceOwnership], made by the owner,
    change the owner. *)
Lemma owner_stateAfter e c s :
  (msg_sender e = owner s -> relinquishes (owner s) c = false) ->
  owner (stateAfter e c s) = owner s.
Proof.
  intros K. destruct c; exec; try reflexivity;
    props; specialize (K ltac:(assumption)); discriminate K.
Qed.

Lemma isArbiter_set_booking s id b a :
  isArbiter (set_booking id b s) a = isArbiter s a.
Proof. reflexivity. Qed.

Lemma isArbiter_set_oracle s o v a :
  isArbiter (set_oracle o v s) a = isArbiter s a.
Proof. reflexivity. Qed.

Lemma isArbiter_set_owner s o a :
  isArbiter (set_owner o s) a = isArbiter s a.
Proof. reflexivity. Qed.

(** Only a successful [revokeArbiter d], which the owner alone can make,
    takes [d] out of the registry. *)
Lemma isArbiter_stateAfter e c s d :
  ~ (c = RevokeArbiter d /\ msg_sender e = owner s) ->
  isArbiter s d = true ->
  isArbiter (stateAfter e c s) d = true.
Proof.
  intros N A.
  destruct c; exec; rewrite ?isArbiter_set_booking, ?isArbiter_set_oracle,
    ?isArbiter_set_owner, ?isArbiter_set_arbiter; try exact A.
  - destruct (decide (a = d)); [reflexivity | exact A].
  - destruct (decide (a = d)) as [->|]; [|exact A].
    props. exfalso. apply N. split; [reflexivity | assumption].
Qed.

Lemma owner_arbiter_run d trace s :
  owner s = d ->
  isArbiter s d = true ->
  Forall (fun ec => msg_sender (fst ec) = d -> relinquishes d (snd ec) = false) trace ->
  owner (run trace s) = d /\ isArbiter (run trace s) d = true.
Proof.
  revert s. induction trace as [|[e c] rest IH]; intros s O A F; cbn [run].
  - split; assumption.
  - apply Forall_cons in F. destruct F as [Hx Hl]. cbn [fst snd] in Hx.
    apply IH; [| | exact Hl].
    + rewrite owner_stateAfter; [exact O|]. rewrite O. exact Hx.
    + apply isArbiter_stateAfter; [|exact A].
      intros [-> Hs]. rewrite O in Hs. specialize (Hx Hs).
      cbn [relinquishes] in Hx. apply bool_decide_eq_false in Hx. congruence.
Qed.

(** C9 as stated fails: the owner may revoke its own arbiter role. *)
Lemma owner_can_leave_arbiters :
  ~ (forall s, reachable s -> isArbiter s (owner s) = true).
Proof.
  intros H.
  specialize (H (stateAfter (accepting alice 10) (RevokeArbiter alice) (constructor alice))
                (reachable_stateAfter _ _ _ (reachable_deployed alice))).
  vm_compute in H. discriminate.
Qed.

(** It fails a second way: the new owner after a transfer of ownership
    was never made an arbiter. *)
Example new_owner_is_no_arbiter :
  reachable (stateAfter (accepting alice 10) (TransferOwnership tina) (constructor alice))
  /\ owner (stateAfter (accepting alice 10) (TransferOwnership tina) (constructor alice))
     = tina
  /\ isArbiter (stateAfter (accepting alice 10) (TransferOwnership tina) (constructor alice))
               tina = false.
Proof.
  split; [apply reachable_stateAfter, reachable_deployed|].
  split; vm_compute; reflexivity.
Qed.

(** C9, amended.  The constructor makes the deployer both owner and
    arbiter.  Along any sequence of calls in which the deployer neither
    calls [revokeArbiter] on its own address nor hands over or renounces
    the ownership, the deployer is still the owner and still an arbiter.
    Nothing guards [revokeArbiter] against the owner's own address, and
    [transferOwnership] and [renounceOwnership] leave the arbiters as
    they are: a revocation of itself takes the owner out of the arbiters,
    and a new owner is an arbiter only if it already was one. *)
Theorem owner_arbiter_until_self_revoked (d : address) (trace : list (Env * Call)) :
  owner (constructor d) = d
  /\ isArbiter (constructor d) d = true
  /\ (Forall (fun ec => msg_sender (fst ec) = d -> relinquishes d (snd ec) = false)
             trace ->
      owner (run trace (constructor d)) = d
      /\ isArbiter (run trace (constructor d)) d = true)
  /\ (forall e s,
        msg_sender e = owner s ->
        owner (stateAfter e (RevokeArbiter (owner s)) s) = owner s
        /\ isArbiter (stateAfter e (RevokeArbiter (owner s)) s) (owner s) = false)
  /\ (forall e s a,
        msg_sender e = owner s ->
        a <> address0 ->
        owner (stateAfter e (TransferOwnership a) s) = a
        /\ forall x, isArbiter (stateAfter e (TransferOwnership a) s) x = isArbiter s x)
  /\ (forall e s,
        msg_sender e = owner s ->
        owner (stateAfter e RenounceOwnership s) = address0
        /\ forall x, isArbiter (stateAfter e RenounceOwnership s) x = isArbiter s x).
Proof.
  assert (A0 : isArbiter (constructor d) d = true).
  { unfold isArbiter, constructor; simpl. rewrite lookup_insert_eq. reflexivity. }
  split; [reflexivity|]. split; [exact A0|].
  split; [|split; [|split]].
  - apply owner_arbiter_run; [reflexivity | exact A0].
  - intros e s He. exec; props; try congruence.
    split; [reflexivity|]. rewrite isArbiter_set_arbiter.
    destruct (decide (owner s = owner s)); congruence.
  - intros e s a He Ha. exec; props; try congruence.
    split; reflexivity.
  - intros e s He. exec; props; try congruence.
    split; reflexivity.
Qed.

Lemma owner_arbiter_until_self_revoked_witness :
  owner (run [(accepting alice 0, AuthorizeOracle olivia);
              (accepting tina 1000, CreateBooking "b1" oscar 100);
              (accepting tina 1500, RevokeArbiter alice);
              (accepting oscar 1600, TransferOwnership oscar)]
             (constructor alice)) = alice
  /\ isArbiter (run [(accepting alice 0, AuthorizeOracle olivia);
                     (accepting tina 1000, CreateBooking "b1" oscar 100);
                     (accepting tina 1500, RevokeArbiter alice);
                     (accepting oscar 1600, TransferOwnership oscar)]
                    (constructor alice)) alice = true.
Proof.
  apply (proj1 (proj2 (proj2
    (owner_arbiter_until_self_revoked alice
       [(accepting alice 0, AuthorizeOracle olivia);
        (accepting tina 1000, CreateBooking "b1" oscar 100);
        (accepting tina 1500, RevokeArbiter alice);
        (accepting oscar 1600, TransferOwnership oscar)])))).
  repeat apply Forall_cons_2; try apply Forall_nil_2; cbn [fst snd];
    intros H; first [reflexivity | vm_compute in H; discriminate H].
Defined.

(** ** Records: what creation establishes and what never changes *)

Lemma wellFormed_step e c s id :
  (bookingAt s id = zeroBooking \/ wellFormedBooking id (bookingAt s id)) ->
  bookingAt (stateAfter e c s) id = zeroBooking
  \/ wellFormedBooking id (bookingAt (stateAfter e c s) id).
Proof.
  intros I.
  destruct (decide (targetOf c = Some id)) as [Hc|Hc];
    [|rewrite frame_other_bookings by exact Hc; exact I].
  revert I. unfold wellFormedBooking.
  destruct c; simpl in Hc; try discriminate; injection Hc as ->.
  all: exec; norm; intros I; try exact I.
  all: try (destruct I as [I|I]; [rewrite I in *; simpl in *; discriminate|];
            right; exact I).
  right. props. rewrite N.mul_1_l in *. repeat split; try assumption; lia.
Qed.

Lemma wellFormed_reachable s id :
  reachable s ->
  bookingAt s id = zeroBooking \/ wellFormedBooking id (bookingAt s id).
Proof.
  induction 1 as [d|e c s s' tr ev R IH H].
  - left. reflexivity.
  - apply transact_stateAfter in H. subst s'. apply wellFormed_step, IH.
Qed.

(** X1. In every reachable state, a booking slot is either still empty
    or holds a record with a non-null operator different from the
    tourist, a positive amount, a deadline exactly [SLA_TIMEOUT_HOURS]
    hours after the deposit time that fits in a [uint256], and the
    identifier it is stored under. *)
Theorem reachable_bookings_well_formed (s : Storage) (id : string) :
  reachable s ->
  bookingAt s id = zeroBooking \/ wellFormedBooking id (bookingAt s id).
Proof. apply wellFormed_reachable. Qed.

Lemma reachable_bookings_well_formed_witness :
  wellFormedBooking "b1" (bookingAt (passedSLA "b1" 100) "b1").
Proof.
  destruct (reachable_bookings_well_formed (passedSLA "b1" 100) "b1"
              (reachable_stateAfter _ _ _ (reachable_booked "b1" 100)))
    as [Z|W].
  - vm_compute in Z. discriminate.
  - exact W.
Defined.

Lemma sameTerms_refl b : sameTerms b b.
Proof. repeat split. Qed.

Lemma sameTerms_trans b1 b2 b3 :
  sameTerms b1 b2 -> sameTerms b2 b3 -> sameTerms b1 b3.
Proof. unfold sameTerms. intuition congruence. Qed.

Lemma sameTerms_step e c s id :
  tourist (bookingAt s id) <> address0 ->
  sameTerms (bookingAt s id) (bookingAt (stateAfter e c s) id).
Proof.
  intros X.
  destruct (decide (targetOf c = Some id)) as [Hc|Hc];
    [|rewrite frame_other_bookings by exact Hc; apply sameTerms_refl].
  revert X. unfold sameTerms.
  destruct c; simpl in Hc; try discriminate; injection Hc as ->.
  all: exec; norm; intros X; try (repeat split; reflexivity).
  props. congruence.
Qed.

(** X2. Once a booking exists, no call of any function, by anyone,
    changes its tourist, operator, amount, deposit time, deadline or
    identifier: over any sequence of calls only [status] and
    [slaVerified] can differ. *)
Theorem booking_terms_immutable (trace : list (Env * Call)) (s : Storage) (id : string) :
  tourist (bookingAt s id) <> address0 ->
  sameTerms (bookingAt s id) (bookingAt (run trace s) id).
Proof.
  revert s. induction trace as [|[e c] rest IH]; intros s X; simpl.
  - apply sameTerms_refl.
  - pose proof (sameTerms_step e c s id X) as S1.
    eapply sameTerms_trans; [exact S1|].
    apply IH. destruct S1 as (T & _). rewrite T. exact X.
Qed.

Lemma booking_terms_immutable_witness :
  sameTerms (bookingAt (booked "b1" 100) "b1")
            (bookingAt (run [(accepting olivia 2000, VerifySLA "b1" true);
                             (accepting tina 2500, RaiseDispute "b1");
                             (accepting alice 3000, ResolveDispute "b1" false)]
                            (booked "b1" 100)) "b1").
Proof.
  apply (booking_terms_immutable _ (booked "b1" 100) "b1").
  vm_compute. discriminate.
Defined.

(** ** The status graph *)

Lemma status_step e c s id :
  tourist (bookingAt s id) <> address0 ->
  status (bookingAt (stateAfter e c s) id) = status (bookingAt s id)
  \/ edge (status (bookingAt s id)) (status (bookingAt (stateAfter e c s) id)) = true.
Proof.
  intros X.
  destruct (decide (targetOf c = Some id)) as [Hc|Hc];
    [|rewrite frame_other_bookings by exact Hc; left; reflexivity].
  revert X.
  destruct c; simpl in Hc; try discriminate; injection Hc as ->.
  all: exec; norm; intros X; try (left; reflexivity); props; try congruence.
  all: right;
    repeat match goal with
           | H : status _ = _ |- _ => rewrite H
           end; reflexivity.
Qed.

Lemma edge_stage a b : edge a b = true -> (stage a < stage b)%nat.
Proof. destruct a, b; simpl; intros; try discriminate; lia. Qed.

(** X3. For an existing booking, over any sequence of calls the status
    moves only along the edges Pending -> SLAPassed | SLAFailed |
    Refunded, SLAPassed -> Paid | Disputed, SLAFailed -> Refunded |
    Disputed, Disputed -> Paid | Refunded; hence its stage never
    decreases and a status once left is never taken again. *)
Theorem status_follows_graph (trace : list (Env * Call)) (s : Storage) (id : string) :
  tourist (bookingAt s id) <> address0 ->
  let st := status (bookingAt s id) in
  let st' := status (bookingAt (run trace s) id) in
  rtc (fun a b => edge a b = true) st st'
  /\ (stage st <= stage st')%nat
  /\ (st' <> st -> (stage st < stage st')%nat).
Proof.
  intros X st st'.
  assert (R : rtc (fun a b => edge a b = true) st st').
  { subst st st'. revert s X.
    induction trace as [|[e c] rest IH]; intros s X; simpl.
    - apply rtc_refl.
    - assert (X' : tourist (bookingAt (stateAfter e c s) id) <> address0).
      { destruct (sameTerms_step e c s id X) as (T & _). rewrite T. exact X. }
      destruct (status_step e c s id X) as [E|E].
      + rewrite <- E. apply IH, X'.
      + eapply rtc_l; [exact E|]. apply IH, X'. }
  split; [exact R|].
  clear X. induction R as [a|a b c0 E R IH].
  - split; [lia|congruence].
  - apply edge_stage in E. destruct IH as [IH _]. split; intros; lia.
Qed.

Lemma status_follows_graph_witness :
  rtc (fun a b => edge a b = true) Pending
      (status (bookingAt (run [(accepting olivia 2000, VerifySLA "b1" true);
                               (accepting tina 2500, RaiseDispute "b1");
                               (accepting alice 3000, ResolveDispute "b1" false)]
                              (booked "b1" 100)) "b1")).
Proof.
  exact (proj1 (status_follows_graph
                  [(accepting olivia 2000, VerifySLA "b1" true);
                   (accepting tina 2500, RaiseDispute "b1");
                   (accepting alice 3000, ResolveDispute "b1" false)]
                  (booked "b1" 100) "b1" ltac:(vm_compute; discriminate))).
Defined.

(** ** Verification is recorded before any later status *)

Lemma verifiedWhenPast_step e c s :
  verifiedWhenPast s -> verifiedWhenPast (stateAfter e c s).
Proof.
  intros I id.
  destruct (decide (targetOf c = Some id)) as [Hc|Hc];
    [|rewrite frame_other_bookings by exact Hc; apply I].
  specialize (I id). revert I.
  destruct c; simpl in Hc; try discriminate; injection Hc as ->.
  all: exec; norm; intros I P; try (exact (I P)); try discriminate P;
    try reflexivity; props;
    repeat match goal with
           | H : status _ = _ |- _ => rewrite H in I
           end; try assumption; try (apply I; reflexivity).
  all: exfalso; specialize (I eq_refl); discriminate I.
Qed.

Lemma verifiedWhenPast_reachable s : reachable s -> verifiedWhenPast s.
Proof.
  induction 1 as [d|e c s s' tr ev R IH H].
  - intros id P. discriminate P.
  - apply transact_stateAfter in H. subst s'.
    apply verifiedWhenPast_step, IH.
Qed.

(** X4. In every reachable state a booking whose status is SLAPassed,
    SLAFailed, Disputed or Paid has [slaVerified = true]; therefore the
    check [require(booking.slaVerified, "SLA not verified")] of
    releaseToOperator, refundToTourist and refundWithPenalty never fails:
    no call reverts with that message. *)
Theorem verification_precedes_payout (s : Storage) :
  reachable s ->
  (forall id, afterVerification (status (bookingAt s id)) = true ->
              slaVerified (bookingAt s id) = true)
  /\ (forall e c, transact e c s <> Reverted (Error "SLA not verified")).
Proof.
  intros R. pose proof (verifiedWhenPast_reachable s R) as I.
  split; [exact I|].
  intros e c.
  destruct c; exec; try discriminate; props;
    specialize (I id);
    match goal with
    | H : status _ = _ |- _ => rewrite H in I
    end; specialize (I eq_refl); congruence.
Qed.

Lemma verification_precedes_payout_witness :
  slaVerified (bookingAt (passedSLA "b1" 100) "b1") = true
  /\ transact (accepting 9 3000) (ReleaseToOperator "b1") (passedSLA "b1" 100)
     <> Reverted (Error "SLA not verified").
Proof.
  destruct (verification_precedes_payout (passedSLA "b1" 100)
              (reachable_stateAfter _ _ _ (reachable_booked "b1" 100)))
    as [I N].
  split.
  - apply I. vm_compute. reflexivity.
  - apply N.
Defined.

(** ** Who may call what *)

(** X5. releaseToOperator, refundToTourist, refundWithPenalty and
    handleTimeout do not look at the caller: two calls at the same block
    time whose transfers fare alike give the same receipt whoever sends
    them. *)
Theorem permissionless_ignores_caller (e1 e2 : Env) (c : Call) (s : Storage) :
  permissionless c = true ->
  block_timestamp e1 = block_timestamp e2 ->
  (forall a v, call_succeeds e1 a v = call_succeeds e2 a v) ->
  transact e1 c s = transact e2 c s.
Proof.
  intros P Ht Hf.
  destruct e1 as [s1 t1 f1], e2 as [s2 t2 f2]. simpl in Ht, Hf. subst t2.
  destruct c; simpl in P; try discriminate.
  all: unfold_contract; norm;
    repeat (cbn [msg_sender block_timestamp call_succeeds];
            rewrite <- ?Hf; branch; norm);
    cbn [msg_sender block_timestamp call_succeeds]; rewrite <- ?Hf; reflexivity.
Qed.

Lemma permissionless_ignores_caller_witness :
  transact (accepting tina 90000) (HandleTimeout "b1") (booked "b1" 100)
  = transact (accepting 777 90000) (HandleTimeout "b1") (booked "b1" 100).
Proof.
  apply permissionless_ignores_caller; reflexivity.
Defined.

(** X6. Role checks come first.  A caller who is not an authorized
    oracle gets "Not authorized oracle" from verifySLA, a caller who is
    not an arbiter gets "Not authorized arbiter" from resolveDispute, and
    a caller who is not the owner gets "Ownable: caller is not the owner"
    from the four registry functions, whatever the arguments and whether
    or not the booking exists; nothing is changed.  Conversely a call
    that succeeds has passed its role check. *)
Theorem role_check_comes_first (e : Env) (c : Call) (s : Storage) :
  (callerAllowed s e c = false ->
   exists msg,
     transact e c s = Reverted (Error msg)
     /\ errorKind (Error msg) = Some Unauthorized
     /\ msg = match c with
              | VerifySLA _ _ => "Not authorized oracle"
              | ResolveDispute _ _ => "Not authorized arbiter"
              | _ => "Ownable: caller is not the owner"
              end
     /\ stateAfter e c s = s)
  /\ (forall s' tr ev, transact e c s = Success s' tr ev -> callerAllowed s e c = true).
Proof.
  split.
  - intros A. destruct c; simpl in A; try discriminate.
    all: eexists; split; [|split; [|split; [reflexivity|]]];
      [ exec; try congruence; reflexivity | reflexivity
      | exec; try congruence; reflexivity ].
  - intros s' tr ev. destruct c; simpl; try reflexivity.
    all: exec; intros H; try discriminate; reflexivity.
Qed.

Lemma role_check_comes_first_witness :
  exists msg,
    transact (accepting tina 2000) (VerifySLA "nowhere" true) deployed = Reverted (Error msg)
    /\ errorKind (Error msg) = Some Unauthorized
    /\ msg = "Not authorized oracle"
    /\ stateAfter (accepting tina 2000) (VerifySLA "nowhere" true) deployed = deployed.
Proof.
  apply (proj1 (role_check_comes_first (accepting tina 2000)
                  (VerifySLA "nowhere" true) deployed)).
  vm_compute. reflexivity.
Defined.

(** ** The role registries *)

Lemma isOracle_set_oracle s o v a :
  isOracle (set_oracle o v s) a = if decide (o = a) then v else isOracle s a.
Proof.
  unfold isOracle, set_oracle; simpl.
  rewrite lookup_insert. destruct (decide (o = a)); reflexivity.
Qed.

(** X7. A registry call by the owner takes effect exactly on the named
    address: authorizeOracle (of a non-null address) makes it an oracle,
    revokeOracle makes it none, authorizeArbiter and revokeArbiter do the
    same for arbiters; every other address keeps its roles, the other
    registry is untouched and so is every booking.  The last call on an
    address decides, so a revoke undoes an authorize and the reverse. *)
Theorem registry_updates (e : Env) (s : Storage) (x : address) :
  msg_sender e = owner s ->
  (forall a,
      isOracle (stateAfter e (RevokeOracle x) s) a
      = (if decide (x = a) then false else isOracle s a)
      /\ isArbiter (stateAfter e (RevokeOracle x) s) a = isArbiter s a)
  /\ (forall a,
        isArbiter (stateAfter e (RevokeArbiter x) s) a
        = (if decide (x = a) then false else isArbiter s a)
        /\ isOracle (stateAfter e (RevokeArbiter x) s) a = isOracle s a)
  /\ (x <> address0 ->
      forall a,
        isOracle (stateAfter e (AuthorizeOracle x) s) a
        = (if decide (x = a) then true else isOracle s a)
        /\ isArbiter (stateAfter e (AuthorizeOracle x) s) a = isArbiter s a)
  /\ (x <> address0 ->
      forall a,
        isArbiter (stateAfter e (AuthorizeArbiter x) s) a
        = (if decide (x = a) then true else isArbiter s a)
        /\ isOracle (stateAfter e (AuthorizeArbiter x) s) a = isOracle s a)
  /\ (forall c id, targetOf c = None ->
        bookingAt (stateAfter e c s) id = bookingAt s id)
  /\ (x <> address0 ->
      isOracle (stateAfter e (RevokeOracle x) (stateAfter e (AuthorizeOracle x) s)) x = false
      /\ isOracle (stateAfter e (AuthorizeOracle x) (stateAfter e (RevokeOracle x) s)) x = true).
Proof.
  intros O.
  assert (Own : forall c, relinquishes (owner s) c = false ->
                          owner (stateAfter e c s) = owner s)
    by (intros c Hc; apply owner_stateAfter; intros _; exact Hc).
  assert (RO : forall s0 a, msg_sender e = owner s0 ->
             isOracle (stateAfter e (RevokeOracle x) s0) a
             = (if decide (x = a) then false else isOracle s0 a)).
  { intros s0 a O0. exec; props; try congruence; rewrite ?isOracle_set_oracle, ?isArbiter_set_arbiter; repeat case_decide; congruence. }
  assert (AO : forall s0 a, msg_sender e = owner s0 -> x <> address0 ->
             isOracle (stateAfter e (AuthorizeOracle x) s0) a
             = (if decide (x = a) then true else isOracle s0 a)).
  { intros s0 a O0 X. exec; props; try congruence; rewrite ?isOracle_set_oracle, ?isArbiter_set_arbiter; repeat case_decide; congruence. }
  split; [|split; [|split; [|split; [|split]]]].
  - intros a. split; [apply RO, O|]. exec; reflexivity.
  - intros a. split; [|exec; reflexivity].
    exec; props; try congruence; rewrite ?isOracle_set_oracle, ?isArbiter_set_arbiter; repeat case_decide; congruence.
  - intros X a. split; [apply AO; assumption|]. exec; reflexivity.
  - intros X a. split; [|exec; reflexivity].
    exec; props; try congruence; rewrite ?isOracle_set_oracle, ?isArbiter_set_arbiter; repeat case_decide; congruence.
  - intros c id Hc. apply frame_other_bookings. rewrite Hc. discriminate.
  - intros X. split.
    + rewrite RO by (rewrite Own by reflexivity; exact O).
      destruct (decide (x = x)); congruence.
    + rewrite AO by (rewrite ?Own by reflexivity; assumption).
      destruct (decide (x = x)); congruence.
Qed.

Lemma registry_updates_witness :
  isOracle (stateAfter (accepting alice 5) (RevokeOracle olivia) deployed) olivia = false
  /\ isOracle deployed olivia = true.
Proof.
  destruct (registry_updates (accepting alice 5) deployed olivia
              ltac:(vm_compute; reflexivity)) as (R & _).
  split.
  - rewrite (proj1 (R olivia)). destruct (decide (olivia = olivia)); congruence.
  - vm_compute. reflexivity.
Defined.

Lemma null_roles_step e c s :
  isOracle s address0 = false /\ isArbiter s address0 = false ->
  isOracle (stateAfter e c s) address0 = false
  /\ isArbiter (stateAfter e c s) address0 = false.
Proof.
  intros [IO IA].
  destruct c; exec; props;
    rewrite ?isOracle_set_oracle, ?isArbiter_set_arbiter;
    repeat case_decide; subst; try congruence; split;
    first [assumption | reflexivity].
Qed.

(** X8. The null address never holds a role.  Whatever calls follow
    the deployment, it is not an authorized oracle; and when the contract
    was deployed by a real (non-null) account it is not an arbiter
    either, whoever owns the contract by then. *)
Theorem null_address_has_no_role (d : address) (trace : list (Env * Call)) :
  isOracle (run trace (constructor d)) address0 = false
  /\ (d <> address0 -> isArbiter (run trace (constructor d)) address0 = false).
Proof.
  assert (G : forall s,
             isOracle s address0 = false ->
             isOracle (run trace s) address0 = false
             /\ (isArbiter s address0 = false ->
                 isArbiter (run trace s) address0 = false)).
  { induction trace as [|[e c] rest IH]; intros s IO; cbn [run].
    - split; [exact IO | intros IA; exact IA].
    - destruct (isArbiter s address0) eqn:IA.
      + split; [|discriminate].
        assert (K : isOracle (stateAfter e c s) address0 = false).
        { clear IH IA. destruct c; exec; props;
            rewrite ?isOracle_set_oracle; repeat case_decide; subst;
            try congruence; assumption. }
        apply (IH _ K).
      + destruct (null_roles_step e c s (conj IO IA)) as [IO' IA'].
        split; [apply (IH _ IO') | intros _; apply (IH _ IO'), IA']. }
  split.
  - apply G. reflexivity.
  - intros X. apply G; [reflexivity|].
    unfold isArbiter, constructor; simpl. rewrite lookup_insert.
    case_decide; [congruence | reflexivity].
Qed.

Lemma null_address_has_no_role_witness :
  isOracle (run [(accepting alice 0, TransferOwnership address0);
                 (accepting alice 1, TransferOwnership tina);
                 (accepting tina 2, AuthorizeArbiter address0)]
                (constructor alice)) address0 = false
  /\ isArbiter (run [(accepting alice 0, TransferOwnership address0);
                     (accepting alice 1, TransferOwnership tina);
                     (accepting tina 2, AuthorizeArbiter address0)]
                    (constructor alice)) address0 = false.
Proof.
  destruct (null_address_has_no_role alice
              [(accepting alice 0, TransferOwnership address0);
               (accepting alice 1, TransferOwnership tina);
               (accepting tina 2, AuthorizeArbiter address0)]) as [O A].
  split; [exact O|]. apply A. vm_compute. discriminate.
Defined.

(** ** Where value goes *)

(** X9. Only releaseToOperator, refundToTourist, refundWithPenalty,
    handleTimeout and resolveDispute transfer value; createBooking,
    verifySLA, raiseDispute and the registry functions never do.  Every
    transfer of a payout goes to the tourist or the operator of the
    booking named in the call (never to the caller, an oracle, an arbiter
    or the owner as such), is at most the booking's amount, and a call
    makes at most two transfers. *)
Theorem transfers_go_to_parties (e : Env) (c : Call) (s s' : Storage) tr ev :
  transact e c s = Success s' tr ev ->
  (isPayout c = false -> tr = [])
  /\ (forall id, targetOf c = Some id ->
        forall a v, In (a, v) tr ->
          (a = tourist (bookingAt s id) \/ a = operator (bookingAt s id))
          /\ v <= amount (bookingAt s id))
  /\ (length tr <= 2)%nat.
Proof.
  intros H. split; [|split].
  - destruct c; simpl; try discriminate; intros _; revert H;
      exec; intros H; try discriminate; injection H as <- <- <-; reflexivity.
  - intros id Hc a v.
    destruct c; simpl in Hc; try discriminate; injection Hc as ->.
    all: revert H; exec; intros H; try discriminate; injection H as <- <- <-;
      simpl; intros Hin; try contradiction; props.
    all: repeat (destruct Hin as [Hin|Hin]; [injection Hin as <- <-|]);
      try contradiction; (split; [auto|]); try apply N.le_refl;
      try assumption; try apply N.le_sub_l.
  - destruct c; revert H; exec; intros H; try discriminate;
      injection H as <- <- <-; simpl; lia.
Qed.

Lemma transfers_go_to_parties_witness :
  (oscar = tourist (bookingAt (failedSLA "b5" 5000) "b5")
   \/ oscar = operator (bookingAt (failedSLA "b5" 5000) "b5"))
  /\ 5 <= amount (bookingAt (failedSLA "b5" 5000) "b5").
Proof.
  apply (proj1 (proj2
    (transfers_go_to_parties (accepting 9 3000) (RefundWithPenalty "b5")
       (failedSLA "b5" 5000)
       (set_booking "b5" (set_status Refunded (bookingAt (failedSLA "b5" 5000) "b5"))
                    (failedSLA "b5" 5000))
       [(oscar, 5); (tina, 4995)]
       [Ev_Refunded "b5" tina 4995; Ev_PaidOut "b5" oscar 5]
       ltac:(vm_compute; reflexivity))) "b5" eq_refl oscar 5).
  left. reflexivity.
Defined.

(** X10. A call that succeeds emits exactly one event of its own,
    except refundWithPenalty and resolveDispute, which emit exactly two.
    That is the whole log of a call that transfers nothing and of a call
    whose recipients do not call back; when they do, the events of their
    calls come on top. *)
Theorem events_per_call (r : Reaction) (e : Env) (c : Call) (s s' : Storage) tr ev :
  transactWith r e c s = Success s' tr ev ->
  (isPayout c = false -> length ev = 1%nat)
  /\ (eventCount c <= length ev)%nat
  /\ ((forall a v st, In (a, v) tr -> r a v st = []) -> length ev = eventCount c).
Proof.
  intros H. split; [|split].
  - destruct c; simpl; try discriminate; intros _; revert H;
      execWith; intros H; try discriminate; injection H as <- <- <-; reflexivity.
  - destruct c; revert H; execWith; intros H; try discriminate;
      injection H as <- <- <-; cbn [eventCount];
      rewrite ?length_app; cbn [length]; lia.
  - intros Q. destruct c; revert H Q; execWith; intros H; try discriminate;
      injection H as <- <- <-; intros Q; cbn [eventCount];
      repeat match goal with
             | R : reenter _ _ (r ?a ?v ?st) _ = _ |- _ =>
                 rewrite (Q a v st) in R by (simpl; auto);
                 cbn [reenter] in R; injection R as <- <-
             end;
      reflexivity.
Qed.

Lemma events_per_call_witness :
  length [Ev_Refunded "b5" tina 4995; Ev_PaidOut "b5" oscar 5] = 2%nat.
Proof.
  apply (proj2 (proj2 (events_per_call quiet (accepting 9 3000) (RefundWithPenalty "b5")
           (failedSLA "b5" 5000)
           (set_booking "b5" (set_status Refunded (bookingAt (failedSLA "b5" 5000) "b5"))
                        (failedSLA "b5" 5000))
           [(oscar, 5); (tina, 4995)] _ ltac:(vm_compute; reflexivity)))).
  reflexivity.
Defined.

(** The operator, paid for one booking, raises a dispute on another
    before the payment returns: the log of releaseToOperator then holds
    the Disputed event ahead of its own PaidOut. *)
Example callback_events :
  transactWith meddling (accepting 9 3000) (ReleaseToOperator "b1") twoBookings
  = Success (set_booking "b2" (set_status Disputed (bookingAt twoBookings "b2"))
               (set_booking "b1" (set_status Paid (bookingAt twoBookings "b1")) twoBookings))
            [(oscar, 100)]
            [Ev_Disputed "b2" tina oscar; Ev_PaidOut "b1" oscar 100].
Proof. vm_compute. reflexivity. Qed.

(** ** Accounting: escrow equals deposits minus payouts *)

Lemma held_fold_comm (j1 j2 : string) (z1 z2 : Booking) (y : N) :
  held z1 + (held z2 + y) = held z2 + (held z1 + y).
Proof. lia. Qed.

Lemma escrowed_fresh s id b :
  bookings s !! id = None ->
  escrowed (set_booking id b s) = held b + escrowed s.
Proof.
  intros Hn. unfold escrowed, set_booking; simpl.
  rewrite map_fold_insert_L; [reflexivity | | exact Hn].
  intros. apply held_fold_comm; assumption.
Qed.

Lemma escrowed_update s id b0 b :
  bookings s !! id = Some b0 ->
  escrowed (set_booking id b s) + held b0 = held b + escrowed s.
Proof.
  intros Hs. unfold escrowed, set_booking; simpl.
  rewrite <- (insert_delete_eq (bookings s)).
  rewrite map_fold_insert_L;
    [ | intros; apply held_fold_comm; assumption | apply lookup_delete_eq ].
  rewrite (map_fold_delete_L _ _ id b0 (bookings s));
    [ | intros; apply held_fold_comm; assumption | exact Hs ].
  lia.
Qed.

Lemma stored_of_tourist s id :
  tourist (bookingAt s id) <> address0 ->
  bookings s !! id = Some (bookingAt s id).
Proof.
  unfold bookingAt. destruct (bookings s !! id); simpl; [reflexivity|].
  intros X. exfalso. apply X. reflexivity.
Qed.

Lemma absent_of_no_tourist s id :
  storedHaveTourist s ->
  tourist (bookingAt s id) = address0 ->
  bookings s !! id = None.
Proof.
  intros W. unfold bookingAt. destruct (bookings s !! id) as [b|] eqn:L; simpl;
    [|reflexivity].
  intros X. exfalso. exact (W id b L X).
Qed.

Lemma set_booking_twice id b1 b2 s :
  set_booking id b2 (set_booking id b1 s) = set_booking id b2 s.
Proof. unfold set_booking; simpl. rewrite insert_insert_eq. reflexivity. Qed.

Lemma storedHaveTourist_set s id b :
  storedHaveTourist s -> tourist b <> address0 ->
  storedHaveTourist (set_booking id b s).
Proof.
  intros W X i b'. unfold set_booking; simpl. rewrite lookup_insert.
  case_decide; [intros [= <-]; exact X | apply W].
Qed.

Lemma storedHaveTourist_step e c s :
  storedHaveTourist s -> msg_sender e <> address0 ->
  storedHaveTourist (stateAfter e c s).
Proof.
  intros W X.
  destruct c; exec; try exact W; props;
    rewrite ?set_booking_twice;
    try (apply storedHaveTourist_set; [exact W | simpl; assumption]).
Qed.

Lemma escrow_step e c s s' tr ev :
  storedHaveTourist s ->
  transact e c s = Success s' tr ev ->
  escrowed s' + totalPaid tr = escrowed s + deposit c.
Proof.
  intros W.
  destruct c; exec; intros H; try discriminate; injection H as <- <- <-; props;
    rewrite ?set_booking_twice; unfold totalPaid; simpl;
    try (unfold escrowed; simpl; lia).
  1: { rewrite escrowed_fresh by (apply absent_of_no_tourist; assumption).
       unfold held; simpl. lia. }
  all: match goal with
       | |- context [escrowed (set_booking ?id ?b ?s)] =>
           pose proof (escrowed_update s id (bookingAt s id) b
                         (stored_of_tourist s id ltac:(assumption))) as U
       end;
       unfold held in U; simpl in U;
       repeat match goal with
              | H : status _ = _ |- _ => rewrite H in U
              end; simpl in U.
  all: try (destruct slaPassed; simpl in U).
  all: try (set (p := _ / BASIS_POINTS) in *; clearbody p); try lia.
Qed.

(** X11. Escrow accounting.  Starting from a storage whose records all
    have a tourist, and with real (non-null) callers, after any sequence
    of attempted calls the amounts of the bookings that are not yet
    [Refunded] or [Paid], plus everything transferred out, equal the
    amounts held at the start plus everything deposited: no call strands
    or duplicates value.  From an empty ledger the open bookings account
    for exactly the deposits minus the payouts. *)
Theorem escrow_accounting (trace : list (Env * Call)) (s : Storage) :
  storedHaveTourist s ->
  Forall (fun ec => msg_sender (fst ec) <> address0) trace ->
  escrowed (run trace s) + paidOut trace s = escrowed s + deposited trace s
  /\ storedHaveTourist (run trace s)
  /\ (bookings s = empty ->
      escrowed (run trace s) = deposited trace s - paidOut trace s).
Proof.
  intros W F.
  assert (G : escrowed (run trace s) + paidOut trace s = escrowed s + deposited trace s
              /\ storedHaveTourist (run trace s)).
  { revert s W. induction trace as [|[e c] rest IH]; intros s W; simpl.
    - split; [lia | exact W].
    - apply Forall_cons in F. destruct F as [X F]. simpl in X.
      pose proof (storedHaveTourist_step e c s W X) as W'.
      specialize (IH F (stateAfter e c s) W').
      unfold stateAfter in *.
      destruct (transact e c s) as [s' tr ev|r] eqn:H.
      + pose proof (escrow_step e c s s' tr ev W H). destruct IH as [IH1 IH2].
        split; [lia | exact IH2].
      + exact IH. }
  destruct G as [G1 G2]. split; [exact G1|]. split; [exact G2|].
  intros E. unfold escrowed in G1 at 2. rewrite E, map_fold_empty in G1. lia.
Qed.

Lemma escrow_accounting_witness :
  escrowed (run [(accepting tina 1000, CreateBooking "b1" oscar 100);
                 (accepting tina 1100, CreateBooking "b2" oscar 40);
                 (accepting olivia 2000, VerifySLA "b1" true);
                 (accepting 9 3000, ReleaseToOperator "b1")] deployed) = 40.
Proof.
  destruct (escrow_accounting
              [(accepting tina 1000, CreateBooking "b1" oscar 100);
               (accepting tina 1100, CreateBooking "b2" oscar 40);
               (accepting olivia 2000, VerifySLA "b1" true);
               (accepting 9 3000, ReleaseToOperator "b1")] deployed)
    as (_ & _ & A).
  - intros id b L. vm_compute in L. discriminate.
  - repeat apply Forall_cons_2; try apply Forall_nil_2; vm_compute; discriminate.
  - rewrite A by reflexivity. vm_compute. reflexivity.
Defined.


(** ** Disputes *)

(** X12. raiseDispute succeeds exactly when the booking exists, the
    caller is its tourist or its operator, and its status is SLAPassed or
    SLAFailed; it then only sets the status to Disputed and emits
    Disputed, moving no value.  On a Disputed booking an arbiter's
    resolveDispute, when its transfer is accepted, pays the whole amount
    to the operator if [operatorWins] and to the tourist otherwise,
    whichever way the oracle had decided, and leaves the booking Paid or
    Refunded; its log ends with the payout event and DisputeResolved.
    What the winner's code did while it held the payment comes before
    those in the log and is in the storage left; with a winner that does
    not call back there is nothing else. *)
Theorem dispute_path (e : Env) (s : Storage) (id : string) :
  let b := bookingAt s id in
  ((exists s' tr ev, transact e (RaiseDispute id) s = Success s' tr ev)
   <-> (tourist b <> address0
        /\ (msg_sender e = tourist b \/ msg_sender e = operator b)
        /\ (status b = SLAPassed \/ status b = SLAFailed)))
  /\ (forall s' tr ev,
        transact e (RaiseDispute id) s = Success s' tr ev ->
        s' = set_booking id (set_status Disputed b) s
        /\ tr = [] /\ ev = [Ev_Disputed id (tourist b) (operator b)])
  /\ (forall r, transactWith r e (RaiseDispute id) s = transact e (RaiseDispute id) s)
  /\ (forall r e2 (operatorWins : bool) s1,
        bookingAt s1 id = set_status Disputed b ->
        tourist b <> address0 ->
        isArbiter s1 (msg_sender e2) = true ->
        let winner := if operatorWins then operator b else tourist b in
        let settled :=
          set_booking id (set_status (if operatorWins then Paid else Refunded) b) s1 in
        let back :=
          reenter (block_timestamp e2) true (r winner (amount b) settled) settled in
        call_succeeds e2 winner (amount b) = true ->
        transactWith r e2 (ResolveDispute id operatorWins) s1
        = Success (fst back) [(winner, amount b)]
                  (snd back
                   ++ [if operatorWins then Ev_PaidOut id (operator b) (amount b)
                       else Ev_Refunded id (tourist b) (amount b);
                       Ev_DisputeResolved id operatorWins (amount b)])%list
        /\ bookingAt (fst back) id
           = set_status (if operatorWins then Paid else Refunded) b
        /\ (r winner (amount b) settled = [] -> fst back = settled /\ snd back = [])).
Proof.
  intros b. subst b. split; [|split; [|split]].
  - split.
    + intros (s' & tr & ev & H). revert H.
      exec; intros H; try discriminate; props; repeat split; auto.
    + intros (X & S & St).
      exec; props; eauto; exfalso; try congruence.
      all: destruct S as [S|S], St as [St|St]; congruence.
  - intros s' tr ev. exec; intros H; try discriminate.
    all: injection H as <- <- <-; repeat split; reflexivity.
  - intros r. execWith; reflexivity.
  - intros r e2 w s1 B X A winner settled back C.
    subst winner settled back.
    split; [|split].
    + destruct w; unfold_with; rewrite ?B; norm;
        repeat (rewrite ?B; first [branch | callback]; norm); props; simpl in *;
        try congruence; try reflexivity.
      all: match goal with
           | H : reenter _ _ _ _ = _ , H' : reenter _ _ _ _ = _ |- _ =>
               pose proof (eq_trans (eq_sym H) H') as K; injection K as <- <-
           end;
        rewrite <- app_assoc; reflexivity.
    + destruct (reenter _ _ _ _) as [s2 ev2] eqn:R. cbn [fst].
      rewrite (reenter_settled _ _ _ _ _ id R);
        rewrite bookingAt_set_booking_eq; destruct w; reflexivity.
    + intros Q. rewrite Q. split; reflexivity.
Qed.

Lemma dispute_path_witness :
  (exists s' tr ev,
      transact (accepting tina 2500) (RaiseDispute "b1") (passedSLA "b1" 100)
      = Success s' tr ev)
  /\ bookingAt
       (stateAfterWith meddling (accepting alice 3000) (ResolveDispute "b1" false)
          (stateAfter (accepting tina 2500) (RaiseDispute "b1") (passedSLA "b1" 100)))
       "b1"
     = set_status Refunded (bookingAt (passedSLA "b1" 100) "b1").
Proof.
  destruct (dispute_path (accepting tina 2500) (passedSLA "b1" 100) "b1")
    as (I & _ & _ & R).
  split.
  - apply (proj2 I). split; [vm_compute; discriminate|].
    split; [left; vm_compute; reflexivity | left; vm_compute; reflexivity].
  - destruct (R meddling (accepting alice 3000) false
                (stateAfter (accepting tina 2500) (RaiseDispute "b1") (passedSLA "b1" 100)))
      as (T & B & _).
    + vm_compute. reflexivity.
    + vm_compute. discriminate.
    + vm_compute. reflexivity.
    + reflexivity.
    + unfold stateAfterWith. rewrite T. exact B.
Defined.

(** ** Leaving escrow without anyone's consent *)

(** X13. In every reachable state an existing booking that is SLAPassed,
    SLAFailed, or Pending with its deadline behind it can be settled by
    anybody: releaseToOperator, refundToTourist or handleTimeout
    respectively, sent by any caller whose transfer is accepted, succeeds,
    pays the whole amount to the operator (SLAPassed) or the tourist, and
    leaves the booking terminal.  Only a Disputed booking needs a
    privileged caller. *)
Theorem permissionless_exit (e : Env) (s : Storage) (id : string) (c : Call) :
  let b := bookingAt s id in
  reachable s ->
  tourist b <> address0 ->
  exitCall (status b) id = Some c ->
  (status b = Pending -> slaDeadline b < block_timestamp e) ->
  (forall a v, call_succeeds e a v = true) ->
  permissionless c = true
  /\ exists s' ev,
       transact e c s
       = Success s' [(match status b with SLAPassed => operator b | _ => tourist b end,
                      amount b)] ev
       /\ isTerminal (status (bookingAt s' id)) = true.
Proof.
  intros b R X Hc D A. subst b.
  pose proof (pendingUnverified_reachable s R id) as PU.
  pose proof (verifiedWhenPast_reachable s R id) as VP.
  destruct (status (bookingAt s id)) eqn:St; simpl in Hc; try discriminate;
    injection Hc as <-; (split; [reflexivity|]).
  all: exec; props; try congruence; try (rewrite A in *; discriminate).
  all: try (eexists _, _; split; [reflexivity|]; norm; reflexivity).
  all: try (specialize (D eq_refl); lia).
  all: try (specialize (PU eq_refl); congruence).
  all: try (specialize (VP eq_refl); congruence).
Qed.

Lemma permissionless_exit_witness :
  exists s' ev,
    transact (accepting 777 90000) (HandleTimeout "b1") (booked "b1" 100)
    = Success s' [(tina, 100)] ev
    /\ isTerminal (status (bookingAt s' "b1")) = true.
Proof.
  apply (permissionless_exit (accepting 777 90000) (booked "b1" 100) "b1"
           (HandleTimeout "b1") (reachable_booked "b1" 100)).
  - vm_compute. discriminate.
  - vm_compute. reflexivity.
  - intros _. vm_compute. reflexivity.
  - reflexivity.
Defined.

(** ** Paid once *)

Lemma terminal_forever trace s id :
  isTerminal (status (bookingAt s id)) = true ->
  tourist (bookingAt s id) <> address0 ->
  bookingAt (run trace s) id = bookingAt s id.
Proof.
  revert s. induction trace as [|[e c] rest IH]; intros s T X; simpl;
    [reflexivity|].
  assert (K : bookingAt (stateAfter e c s) id = bookingAt s id).
  { destruct (decide (targetOf c = Some id)) as [Hc|Hc];
      [|apply frame_other_bookings; exact Hc].
    destruct c; simpl in Hc; try discriminate; injection Hc as ->.
    1: { destruct (create_existing_reverts e s id op msg_value X) as [r Hr].
         rewrite (stateAfter_reverted _ _ _ _ Hr). reflexivity. }
    all: match goal with
         | |- bookingAt (stateAfter _ ?c _) _ = _ =>
             destruct (acts_on_terminal_reverts e c s id T) as [r Hr];
               [simpl; apply bool_decide_eq_true; reflexivity|];
               rewrite (stateAfter_reverted _ _ _ _ Hr); reflexivity
         end. }
  rewrite IH; rewrite K; auto.
Qed.

Lemma payout_success_terminal e c s s' tr ev id :
  transact e c s = Success s' tr ev ->
  movesFunds c id = true ->
  isTerminal (status (bookingAt s' id)) = true
  /\ tourist (bookingAt s' id) <> address0.
Proof.
  intros H M. destruct c; simpl in M; try discriminate;
    apply bool_decide_eq_true in M; subst id0.
  all: revert H; exec; intros H; try discriminate; injection H as <- <- <-;
    norm; props; split; (reflexivity || assumption).
Qed.

Lemma payout_on_terminal_message e c s id :
  isTerminal (status (bookingAt s id)) = true ->
  tourist (bookingAt s id) <> address0 ->
  movesFunds c id = true ->
  exists msg, transact e c s = Reverted (Error msg)
              /\ (msg = "Invalid booking status" \/ msg = "Not authorized arbiter").
Proof.
  intros T X M. destruct c; simpl in M; try discriminate;
    apply bool_decide_eq_true in M; subst id0.
  all: exec; props; try congruence; try status_clash; eauto.
Qed.

(** X14. A booking is settled once.  After any of releaseToOperator,
    refundToTourist, refundWithPenalty, handleTimeout or resolveDispute
    has succeeded on a booking, the record never changes again whatever
    calls follow, and every later attempt to pay it out reverts, with
    "Invalid booking status" or, for resolveDispute by a non-arbiter,
    "Not authorized arbiter". *)
Theorem settled_once (e : Env) (c : Call) (s s' : Storage) tr ev (id : string)
        (trace : list (Env * Call)) (e2 : Env) (c2 : Call) :
  transact e c s = Success s' tr ev ->
  movesFunds c id = true ->
  movesFunds c2 id = true ->
  bookingAt (run trace s') id = bookingAt s' id
  /\ exists msg,
       transact e2 c2 (run trace s') = Reverted (Error msg)
       /\ (msg = "Invalid booking status" \/ msg = "Not authorized arbiter").
Proof.
  intros H M M2.
  destruct (payout_success_terminal e c s s' tr ev id H M) as [T X].
  pose proof (terminal_forever trace s' id T X) as K.
  split; [exact K|].
  apply payout_on_terminal_message with (id := id);
    [rewrite K; exact T | rewrite K; exact X | exact M2].
Qed.

Lemma settled_once_witness :
  exists msg,
    transact (accepting 9 5000) (ReleaseToOperator "b1")
      (run [(accepting tina 4000, RaiseDispute "b1")]
           (set_booking "b1" (set_status Paid (bookingAt (passedSLA "b1" 100) "b1"))
                        (passedSLA "b1" 100)))
    = Reverted (Error msg)
    /\ (msg = "Invalid booking status" \/ msg = "Not authorized arbiter").
Proof.
  apply (proj2 (settled_once (accepting 9 3000) (ReleaseToOperator "b1")
                  (passedSLA "b1" 100)
                  (set_booking "b1" (set_status Paid (bookingAt (passedSLA "b1" 100) "b1"))
                               (passedSLA "b1" 100))
                  [(oscar, 100)] [Ev_PaidOut "b1" oscar 100] "b1"
                  [(accepting tina 4000, RaiseDispute "b1")]
                  (accepting 9 5000) (ReleaseToOperator "b1")
                  ltac:(vm_compute; reflexivity) ltac:(vm_compute; reflexivity)
                  ltac:(vm_compute; reflexivity))).
Defined.

(** ** The time views *)

(** X15. For an existing booking in a reachable state, read at a block
    time not before its deposit: getTimeRemaining never reverts, returns
    at most [SLA_TIMEOUT_HOURS] hours, returns 0 exactly from the deadline
    on, and before the deadline returns the exact distance to it;
    isTimedOut returning [true] implies that no time remains and that no
    verification was recorded; and whenever handleTimeout succeeds,
    isTimedOut read in the same block returns [true]. *)
Theorem time_views (e : Env) (s : Storage) (id : string) :
  let b := bookingAt s id in
  let now := block_timestamp e in
  reachable s ->
  tourist b <> address0 ->
  depositTime b <= now ->
  exists r,
    staticcall (getTimeRemaining id) e s = inr r
    /\ r <= SLA_TIMEOUT_HOURS * hours
    /\ (r = 0 <-> slaDeadline b <= now)
    /\ (now < slaDeadline b -> now + r = slaDeadline b)
    /\ (staticcall (isTimedOut id) e s = inr true -> r = 0 /\ slaVerified b = false)
    /\ ((exists s' tr ev, transact e (HandleTimeout id) s = Success s' tr ev) ->
        staticcall (isTimedOut id) e s = inr true).
Proof.
  intros b now R X D. subst b now.
  destruct (wellFormed_reachable s id R) as [Z|W].
  { rewrite Z in X. exfalso. apply X. reflexivity. }
  destruct W as (_ & _ & _ & Dl & _ & _).
  rewrite getTimeRemaining_result, isTimedOut_result.
  eexists. split; [reflexivity|].
  destruct (slaDeadline (bookingAt s id) <=? block_timestamp e) eqn:L; props.
  - split; [lia|]. split; [tauto|]. split; [lia|]. split.
    + intros [= H]. props. split; [reflexivity|assumption].
    + intros (s' & tr & ev & H). revert H.
      exec; intros H; try discriminate; props; try reflexivity; try lia.
  - split; [lia|]. split; [split; intros; lia|]. split; [lia|]. split.
    + intros [= H]. props. lia.
    + intros (s' & tr & ev & H). revert H.
      exec; intros H; try discriminate; props; try reflexivity; lia.
Qed.

Lemma time_views_witness :
  exists r,
    staticcall (getTimeRemaining "b1") (accepting 9 80000) (booked "b1" 100) = inr r
    /\ r <= SLA_TIMEOUT_HOURS * hours.
Proof.
  destruct (time_views (accepting 9 80000) (booked "b1" 100) "b1"
              (reachable_booked "b1" 100)
              ltac:(vm_compute; discriminate) ltac:(vm_compute; discriminate))
    as (r & H1 & H2 & _).
  exists r. split; assumption.
Defined.

(** ** Full payouts and single verification *)

(** X16. releaseToOperator succeeds exactly when the booking exists, is
    SLAPassed and verified, and the operator accepts the transfer of the
    whole amount; refundToTourist exactly when it exists, is SLAFailed and
    verified, and the tourist accepts.  Each then makes that one transfer,
    leaves the booking Paid or Refunded respectively, and ends its log
    with PaidOut or Refunded carrying the amount.  The status is written
    before the transfer, so what the recipient's code did while it held
    the payment acts on the storage with the booking already settled: it
    comes before that event in the log and is in the storage left.  With
    a recipient that does not call back, the booking's new status and the
    one event are all there is. *)
Theorem full_payouts (r : Reaction) (e : Env) (s : Storage) (id : string) :
  let b := bookingAt s id in
  let paid := set_booking id (set_status Paid b) s in
  let refunded := set_booking id (set_status Refunded b) s in
  let toOperator :=
    reenter (block_timestamp e) true (r (operator b) (amount b) paid) paid in
  let toTourist :=
    reenter (block_timestamp e) true (r (tourist b) (amount b) refunded) refunded in
  ((exists s' tr ev, transactWith r e (ReleaseToOperator id) s = Success s' tr ev)
   <-> (tourist b <> address0 /\ status b = SLAPassed /\ slaVerified b = true
        /\ call_succeeds e (operator b) (amount b) = true))
  /\ ((exists s' tr ev, transactWith r e (RefundToTourist id) s = Success s' tr ev)
      <-> (tourist b <> address0 /\ status b = SLAFailed /\ slaVerified b = true
           /\ call_succeeds e (tourist b) (amount b) = true))
  /\ (forall s' tr ev,
        transactWith r e (ReleaseToOperator id) s = Success s' tr ev ->
        tr = [(operator b, amount b)]
        /\ bookingAt s' id = set_status Paid b
        /\ s' = fst toOperator
        /\ ev = (snd toOperator ++ [Ev_PaidOut id (operator b) (amount b)])%list
        /\ (r (operator b) (amount b) paid = [] ->
            s' = paid /\ ev = [Ev_PaidOut id (operator b) (amount b)]))
  /\ (forall s' tr ev,
        transactWith r e (RefundToTourist id) s = Success s' tr ev ->
        tr = [(tourist b, amount b)]
        /\ bookingAt s' id = set_status Refunded b
        /\ s' = fst toTourist
        /\ ev = (snd toTourist ++ [Ev_Refunded id (tourist b) (amount b)])%list
        /\ (r (tourist b) (amount b) refunded = [] ->
            s' = refunded /\ ev = [Ev_Refunded id (tourist b) (amount b)])).
Proof.
  intros b paid refunded toOperator toTourist.
  subst b paid refunded toOperator toTourist.
  split; [|split; [|split]].
  - split.
    + intros (s' & tr & ev & H). revert H.
      execWith; intros H; try discriminate; props; auto.
    + intros (X & St & V & C). execWith; props; try congruence; eauto.
  - split.
    + intros (s' & tr & ev & H). revert H.
      execWith; intros H; try discriminate; props; auto.
    + intros (X & St & V & C). execWith; props; try congruence; eauto.
  - intros s' tr ev. execWith; intros H; try discriminate.
    injection H as <- <- <-.
    split; [reflexivity|]. split; [settle; reflexivity|].
    cbn [fst snd]. split; [reflexivity|]. split; [reflexivity|].
    intros Q. rewrite Q in R. cbn [reenter] in R. injection R as <- <-.
    split; reflexivity.
  - intros s' tr ev. execWith; intros H; try discriminate.
    injection H as <- <- <-.
    split; [reflexivity|]. split; [settle; reflexivity|].
    cbn [fst snd]. split; [reflexivity|]. split; [reflexivity|].
    intros Q. rewrite Q in R. cbn [reenter] in R. injection R as <- <-.
    split; reflexivity.
Qed.

Lemma full_payouts_witness :
  exists s' tr ev,
    transactWith meddling (accepting 9 3000) (ReleaseToOperator "b1") twoBookings
    = Success s' tr ev.
Proof.
  apply (proj2 (proj1 (full_payouts meddling (accepting 9 3000) twoBookings "b1"))).
  split; [vm_compute; discriminate|].
  split; [vm_compute; reflexivity|].
  split; [vm_compute; reflexivity | reflexivity].
Defined.

Lemma stage_step e c s id :
  tourist (bookingAt s id) <> address0 ->
  (stage (status (bookingAt s id)) <= stage (status (bookingAt (stateAfter e c s) id)))%nat.
Proof.
  intros X. destruct (status_step e c s id X) as [E|E].
  - rewrite E. lia.
  - apply edge_stage in E. lia.
Qed.

Lemma verified_step e c s id :
  tourist (bookingAt s id) <> address0 ->
  slaVerified (bookingAt s id) = true ->
  slaVerified (bookingAt (stateAfter e c s) id) = true.
Proof.
  intros X.
  destruct (decide (targetOf c = Some id)) as [Hc|Hc];
    [|rewrite frame_other_bookings by exact Hc; auto].
  revert X.
  destruct c; simpl in Hc; try discriminate; injection Hc as ->.
  all: exec; norm; intros X V; try assumption; try reflexivity;
    try discriminate V; props; congruence.
Qed.

Lemma verified_past_pending_run trace s id :
  tourist (bookingAt s id) <> address0 ->
  slaVerified (bookingAt s id) = true ->
  (1 <= stage (status (bookingAt s id)))%nat ->
  tourist (bookingAt (run trace s) id) <> address0
  /\ slaVerified (bookingAt (run trace s) id) = true
  /\ (1 <= stage (status (bookingAt (run trace s) id)))%nat.
Proof.
  revert s. induction trace as [|[e c] rest IH]; intros s X V St; simpl;
    [auto|].
  apply IH.
  - destruct (sameTerms_step e c s id X) as (T & _). rewrite T. exact X.
  - apply verified_step; assumption.
  - pose proof (stage_step e c s id X). lia.
Qed.

(** X17. Verification is recorded once.  After verifySLA has succeeded
    on a booking, whatever calls follow, the booking stays verified and
    never returns to Pending, and every further verifySLA on it reverts:
    with "Not authorized oracle" for a caller without the role, otherwise
    with "Invalid booking status".  The "SLA already verified" check is
    never the one that fails in a reachable state. *)
Theorem verified_once (e : Env) (s s' : Storage) (id : string) (p : bool) tr ev
        (trace : list (Env * Call)) (e2 : Env) (p2 : bool) :
  transact e (VerifySLA id p) s = Success s' tr ev ->
  slaVerified (bookingAt (run trace s') id) = true
  /\ status (bookingAt (run trace s') id) <> Pending
  /\ transact e2 (VerifySLA id p2) (run trace s')
     = Reverted (Error (if isOracle (run trace s') (msg_sender e2)
                        then "Invalid booking status"
                        else "Not authorized oracle"))
  /\ (reachable s ->
      forall e3 c3, transact e3 c3 (run trace s') <> Reverted (Error "SLA already verified")).
Proof.
  intros H.
  assert (A : tourist (bookingAt s' id) <> address0
              /\ slaVerified (bookingAt s' id) = true
              /\ (1 <= stage (status (bookingAt s' id)))%nat).
  { revert H. exec; intros H; try discriminate; injection H as <- <- <-;
      norm; props; repeat split; simpl; auto. }
  destruct A as (X & V & St).
  destruct (verified_past_pending_run trace s' id X V St) as (X' & V' & St').
  assert (NP : status (bookingAt (run trace s') id) <> Pending).
  { intros P. rewrite P in St'. simpl in St'. lia. }
  split; [exact V'|]. split; [exact NP|]. split.
  - exec; props; try congruence.
  - intros R e3 c3.
    assert (R' : reachable (run trace s')).
    { apply reachable_run. eapply reachable_step; eassumption. }
    pose proof (pendingUnverified_reachable _ R') as PU.
    destruct c3; exec; try discriminate; props;
      specialize (PU id0 ltac:(assumption)); congruence.
Qed.

Lemma verified_once_witness :
  transact (accepting olivia 2500) (VerifySLA "b1" false)
    (run [(accepting tina 2200, RaiseDispute "b1")]
         (set_booking "b1" (set_status SLAPassed (set_slaVerified true
                              (bookingAt (booked "b1" 100) "b1")))
                      (booked "b1" 100)))
  = Reverted (Error "Invalid booking status").
Proof.
  destruct (verified_once (accepting olivia 2000) (booked "b1" 100)
              (set_booking "b1" (set_status SLAPassed (set_slaVerified true
                                   (bookingAt (booked "b1" 100) "b1")))
                           (booked "b1" 100))
              "b1" true [] [Ev_SLAPassed "b1" oscar]
              [(accepting tina 2200, RaiseDispute "b1")]
              (accepting olivia 2500) false)
    as (_ & _ & E & _).
  - vm_compute. reflexivity.
  - rewrite E. vm_compute. reflexivity.
Defined.

(** ** Calling back during a transfer *)

Lemma run_app t1 t2 s : run (t1 ++ t2) s = run t2 (run t1 s).
Proof.
  revert s. induction t1 as [|[e c] rest IH]; intros s; [reflexivity|].
  cbn [app run]. apply IH.
Qed.

Lemma reenter_trace now calls s s1 ev1 :
  reenter now true calls s = (s1, ev1) ->
  s1 = run (landing now calls) s.
Proof. intros R. rewrite <- reenter_run, R. reflexivity. Qed.

(** X26. Calling back gains a recipient nothing that separate
    transactions would not give.  The storage a successful call leaves
    when its recipients call back is the storage left by the same call
    with recipients that do not, followed by calls to functions without
    the guard, each as a transaction of its own; so every state reached
    with callbacks is a reachable state. *)
Theorem callbacks_are_calls (r : Reaction) (e : Env) (c : Call) (s s' : Storage) tr ev :
  transactWith r e c s = Success s' tr ev ->
  (exists trace,
      s' = run ((e, c) :: trace) s
      /\ Forall (fun ec => guarded (snd ec) = false) trace)
  /\ (reachable s -> reachable s').
Proof.
  intros H.
  assert (K : exists trace,
             s' = run ((e, c) :: trace) s
             /\ Forall (fun ec => guarded (snd ec) = false) trace).
  { revert H. cbn [run].
    destruct c; execWith; intros H; try discriminate; injection H as <- <- <-.
    all: repeat match goal with
                | R : reenter _ true _ _ = _ |- _ => apply reenter_trace in R
                end.
    all: try (exists []; split; [reflexivity | constructor]).
    all: try (eexists; split; [eassumption | apply landing_unguarded]).
    match goal with
    | R1 : ?sa = run ?l1 ?X, R2 : ?sb = run ?l2 ?sa |- _ =>
        exists (l1 ++ l2)%list; split;
          [ rewrite run_app, <- R1; exact R2
          | apply Forall_app; split; apply landing_unguarded ]
    end. }
  split; [exact K|].
  intros Rs. destruct K as (trace & -> & _). apply reachable_run. exact Rs.
Qed.

Lemma callbacks_are_calls_witness :
  exists trace,
    set_booking "b2" (set_status Disputed (bookingAt twoBookings "b2"))
      (set_booking "b1" (set_status Paid (bookingAt twoBookings "b1")) twoBookings)
    = run ((accepting 9 3000, ReleaseToOperator "b1") :: trace) twoBookings
    /\ Forall (fun ec => guarded (snd ec) = false) trace.
Proof.
  apply (proj1 (callbacks_are_calls meddling (accepting 9 3000) (ReleaseToOperator "b1")
                  twoBookings _ [(oscar, 100)]
                  [Ev_Disputed "b2" tina oscar; Ev_PaidOut "b1" oscar 100]
                  ltac:(vm_compute; reflexivity))).
Defined.

(** X27. The re-entrancy guard.  While the flag is set, createBooking,
    releaseToOperator, refundToTourist, refundWithPenalty and
    handleTimeout revert with "ReentrancyGuard: reentrant call" before
    anything else, and so does resolveDispute once its caller has passed
    the arbiter check, which comes first; nothing is written.  verifySLA,
    raiseDispute and the registry and ownership functions carry no guard:
    with the flag set they do exactly what they do as a transaction. *)
Theorem guard_blocks_reentry (e : Env) (c : Call) (s : Storage)
    (h : bool -> address -> uint256 -> Storage -> Storage * list Event) :
  (guarded c = true ->
   exists msg,
     dispatch c e (mkWorld s [] [] true h) = Abort (Error msg) (mkWorld s [] [] true h)
     /\ msg = match c with
              | ResolveDispute _ _ =>
                  if isArbiter s (msg_sender e) then "ReentrancyGuard: reentrant call"
                  else "Not authorized arbiter"
              | _ => "ReentrancyGuard: reentrant call"
              end)
  /\ (guarded c = false ->
      transact e c s
      = match dispatch c e (mkWorld s [] [] true h) with
        | Continue _ w => Success (storage w) (sent w) (logs w)
        | Abort x _ => Reverted x
        end).
Proof.
  split; intros G; destruct c; try discriminate G.
  all: try (eexists; split; [exec; reflexivity | try reflexivity]).
  all: try (exec; reflexivity).
  destruct (isArbiter s (msg_sender e)) eqn:A; eexists;
    (split; [unfold_contract; rewrite A; reflexivity | reflexivity]).
Qed.

Lemma guard_blocks_reentry_witness :
  exists msg,
    dispatch (RefundToTourist "b5") (accepting tina 3000)
             (mkWorld (failedSLA "b5" 5000) [] [] true (fun _ _ _ st => (st, [])))
    = Abort (Error msg)
            (mkWorld (failedSLA "b5" 5000) [] [] true (fun _ _ _ st => (st, [])))
    /\ msg = "ReentrancyGuard: reentrant call".
Proof.
  apply (proj1 (guard_blocks_reentry (accepting tina 3000) (RefundToTourist "b5")
                  (failedSLA "b5" 5000) (fun _ _ _ st => (st, [])))).
  reflexivity.
Defined.

(** * Properties of the EmergencyAlert contract *)

Module EmergencyAlertFacts.
Import EmergencyAlert.
Local Open Scope list_scope.

Lemma indices_succ n : indices (n + 1) = (indices n ++ [n])%list.
Proof.
  unfold indices. replace (N.to_nat (n + 1)) with (S (N.to_nat n)) by lia.
  rewrite seq_S, map_app. simpl. rewrite N2Nat.id. reflexivity.
Qed.

Lemma In_indices i n : In i (indices n) <-> i < n.
Proof.
  unfold indices. rewrite in_map_iff. split.
  - intros (k & <- & Hk). apply in_seq in Hk. lia.
  - intros H. exists (N.to_nat i). split; [apply N2Nat.id|].
    apply in_seq. lia.
Qed.

Lemma length_indices n : length (indices n) = N.to_nat n.
Proof. unfold indices. rewrite length_map, length_seq. reflexivity. Qed.

Lemma validAlertType_always ty : validAlertType ty = true.
Proof. destruct ty; reflexivity. Qed.

Lemma filter_ext_members {A} (P Q : A -> Prop) `{forall x, Decision (P x)}
      `{forall x, Decision (Q x)} (l : list A) :
  (forall x, In x l -> (P x <-> Q x)) -> filter P l = filter Q l.
Proof.
  induction l as [|x l IH]; intros E; [reflexivity|].
  rewrite !filter_cons.
  rewrite IH by (intros y Hy; apply E; right; exact Hy).
  destruct (decide (P x)) as [p|p], (decide (Q x)) as [q|q]; try reflexivity;
    exfalso; apply (E x (or_introl eq_refl)) in p || apply (E x (or_introl eq_refl)) in q;
    contradiction.
Qed.

Ltac run_alert :=
  unfold transact, triggerAlert, resolveAlert, addEmergencyContact,
    removeEmergencyContact, transferOwnership, renounceOwnership, increment in *;
  repeat case_match; simplify_eq.

Section Alerts.
Variable keccak256 : string -> N.

(** X18. triggerAlert hands out consecutive identifiers.  With a
    non-empty location (and a counter below the [uint256] maximum) it
    succeeds for every alert type: the new alert is stored under the old
    value of [alertCounter] as an active alert of the caller with the
    given data and the block time, getAlert returns it, the counter grows
    by one, the identifier is appended to the caller's list, and no other
    alert, list, contact or the owner changes.  With an empty location it
    reverts with "Location cannot be empty". *)
Theorem triggerAlert_next_id (ty : AlertType) (loc desc : string) (e : Env) (s : Storage) :
  let id := alertCounter s in
  let a := mkAlert (msg_sender e) ty loc (block_timestamp e) true desc in
  (loc = "" -> triggerAlert ty loc desc e s = inl (Error "Location cannot be empty"))
  /\ (loc <> "" -> id < MAX_UINT256 ->
      exists s',
        triggerAlert ty loc desc e s
        = inr (s', [AlertTriggered id (msg_sender e) ty loc (block_timestamp e) desc])
        /\ alertCounter s' = id + 1
        /\ alertAt s' id = a
        /\ getAlert id s' = inr a
        /\ (forall i, i <> id -> alertAt s' i = alertAt s i)
        /\ alertsOf s' (msg_sender e) = (alertsOf s (msg_sender e) ++ [id])%list
        /\ (forall t, t <> msg_sender e -> alertsOf s' t = alertsOf s t)
        /\ emergencyContacts s' = emergencyContacts s
        /\ contactTypes s' = contactTypes s
        /\ owner s' = owner s).
Proof.
  intros id a. subst id a. unfold triggerAlert.
  rewrite validAlertType_always. simpl negb. cbv iota.
  split.
  - intros ->. reflexivity.
  - intros L M.
    assert (B : (0 <? byteLength loc) = true).
    { apply N.ltb_lt. unfold byteLength. destruct loc; [congruence|simpl; lia]. }
    rewrite B. simpl negb. cbv iota. unfold increment.
    assert (I : (alertCounter s + 1 <=? MAX_UINT256) = true) by (apply N.leb_le; lia).
    rewrite I. eexists. split; [reflexivity|].
    unfold getAlert, alertAt, alertsOf; simpl.
    rewrite !lookup_insert_eq. simpl.
    assert (C : (alertCounter s <? alertCounter s + 1) = true) by (apply N.ltb_lt; lia).
    rewrite C. simpl.
    repeat split; try reflexivity.
    + intros i Hi. rewrite lookup_insert_ne by congruence. reflexivity.
    + intros t Ht. rewrite lookup_insert_ne by congruence. reflexivity.
Qed.

Lemma consistent_step e c s s' ev :
  consistent s -> transact keccak256 e c s = inr (s', ev) -> consistent s'.
Proof.
  intros (B & Z & L & T) H. unfold consistent.
  destruct c; run_alert; simpl; try (repeat split; assumption).
  - (* triggerAlert *)
    assert (Hloc : loc <> "").
    { intros ->. match goal with H : negb (0 <? byteLength "") = false |- _ =>
                   vm_compute in H; discriminate end. }
    match goal with H : (_ <=? _) = true |- _ => apply N.leb_le in H end.
    split; [assumption|]. split; [|split].
    + intros i Hi. rewrite lookup_insert_ne by lia. apply Z. lia.
    + intros i Hi. destruct (decide (i = alertCounter s)) as [->|Hne].
      * rewrite lookup_insert_eq. eexists. split; [reflexivity|]. exact Hloc.
      * rewrite lookup_insert_ne by congruence. apply L. lia.
    + intros t. unfold idsOfTourist; simpl. rewrite indices_succ, filter_app.
      assert (Old : filter (fun i => tourist (alertAt
                 {| alerts := <[alertCounter s := mkAlert (msg_sender e) ty loc
                                   (block_timestamp e) true desc]> (alerts s);
                    touristAlerts := <[msg_sender e :=
                                        (alertsOf s (msg_sender e) ++ [alertCounter s])%list]>
                                       (touristAlerts s);
                    alertCounter := alertCounter s + 1;
                    emergencyContacts := emergencyContacts s;
                    contactTypes := contactTypes s;
                    owner := owner s |} i) = t) (indices (alertCounter s))
                   = idsOfTourist t s).
      { apply filter_ext_members. intros i Hi. apply In_indices in Hi.
        unfold alertAt; simpl. rewrite lookup_insert_ne by lia. reflexivity. }
      rewrite Old. rewrite filter_singleton; [|exact []].
      unfold alertsOf, alertAt; simpl. rewrite lookup_insert_eq; simpl.
      destruct (decide (msg_sender e = t)) as [->|Hne].
      * rewrite lookup_insert_eq; simpl. fold (alertsOf s t). rewrite T. reflexivity.
      * rewrite lookup_insert_ne by congruence. fold (alertsOf s t).
        rewrite T, app_nil_r. reflexivity.
  - (* resolveAlert *)
    match goal with H : negb (_ <? _) = false |- _ =>
      apply negb_false_iff, N.ltb_lt in H; rename H into Hlt end.
    split; [assumption|]. split; [|split].
    + intros i Hi. rewrite lookup_insert_ne by lia. apply Z. exact Hi.
    + intros i Hi. destruct (decide (i = alertId)) as [->|Hne].
      * rewrite lookup_insert_eq. eexists. split; [reflexivity|]. simpl.
        destruct (L alertId Hlt) as (a & Ha & Hl). unfold alertAt. rewrite Ha. exact Hl.
      * rewrite lookup_insert_ne by congruence. apply L. exact Hi.
    + intros t. unfold alertsOf; simpl. fold (alertsOf s t). rewrite T.
      unfold idsOfTourist; simpl. apply filter_ext_members. intros i Hi.
      unfold alertAt at 2; simpl.
      destruct (decide (alertId = i)) as [->|Hne].
      * rewrite lookup_insert_eq. reflexivity.
      * rewrite lookup_insert_ne by congruence. reflexivity.
Qed.

Lemma consistent_reachable s : reachable keccak256 s -> consistent s.
Proof.
  induction 1 as [d|e c s s' ev R IH H].
  - unfold consistent, constructor; simpl. split; [vm_compute; discriminate|].
    split; [intros; apply lookup_empty|]. split; [intros i Hi; lia|].
    intros t. reflexivity.
  - eapply consistent_step; eassumption.
Qed.

(** X19. In every reachable state the alerts stored are exactly those
    with an identifier below [alertCounter] (getAlert succeeds on these
    and on no other), each has a non-empty location, and for every
    address its [touristAlerts] list is exactly the identifiers of the
    alerts it raised, in increasing order, with none missing and none
    repeated. *)
Theorem alert_register_consistent (s : Storage) :
  reachable keccak256 s ->
  alertCounter s <= MAX_UINT256
  /\ (forall i, alertCounter s <= i ->
        alertAt s i = zeroAlert /\ getAlert i s = inl (Error "Alert does not exist"))
  /\ (forall i, i < alertCounter s ->
        getAlert i s = inr (alertAt s i) /\ location (alertAt s i) <> "")
  /\ (forall t, getTouristAlerts t s = inr (idsOfTourist t s)).
Proof.
  intros R. destruct (consistent_reachable s R) as (B & Z & L & T).
  split; [exact B|]. split; [|split].
  - intros i Hi. unfold alertAt, getAlert. rewrite (Z i Hi). split; [reflexivity|].
    assert (E : (i <? alertCounter s) = false) by (apply N.ltb_ge; exact Hi).
    rewrite E. reflexivity.
  - intros i Hi. unfold getAlert.
    assert (E : (i <? alertCounter s) = true) by (apply N.ltb_lt; exact Hi).
    rewrite E. split; [reflexivity|].
    destruct (L i Hi) as (a & Ha & Hl). unfold alertAt. rewrite Ha. exact Hl.
  - intros t. unfold getTouristAlerts. rewrite T. reflexivity.
Qed.

(** X20. resolveAlert succeeds exactly when the alert exists, is still
    active, and the caller is the tourist who raised it or the owner; it
    then only clears [isActive] of that alert and emits AlertResolved.  A
    resolved alert stays resolved whatever calls follow, and resolving it
    again reverts with "Alert is already resolved". *)
Theorem resolveAlert_once (e : Env) (s : Storage) (id : uint256) :
  let a := alertAt s id in
  (resolveAlert id e s
   = inr (mkStorage (<[id := set_isActive false a]> (alerts s)) (touristAlerts s)
                    (alertCounter s) (emergencyContacts s) (contactTypes s) (owner s),
          [AlertResolved id (tourist a) (block_timestamp e)])
   <-> (id < alertCounter s /\ isActive a = true
        /\ (msg_sender e = tourist a \/ msg_sender e = owner s)))
  /\ (forall s' ev, resolveAlert id e s = inr (s', ev) ->
        s' = mkStorage (<[id := set_isActive false a]> (alerts s)) (touristAlerts s)
                       (alertCounter s) (emergencyContacts s) (contactTypes s) (owner s))
  /\ (id < alertCounter s -> isActive a = false ->
      forall trace e2,
        isActive (alertAt (run keccak256 trace s) id) = false
        /\ resolveAlert id e2 (run keccak256 trace s)
           = inl (Error "Alert is already resolved")).
Proof.
  intros a. subst a. split; [|split].
  - unfold resolveAlert. split.
    + intros H. repeat case_match; try discriminate.
      repeat match goal with
             | H : negb _ = false |- _ => apply negb_false_iff in H
             end.
      split; [apply N.ltb_lt; assumption|]. split; [assumption|].
      match goal with
      | O : _ || _ = true |- _ =>
          apply orb_true_iff in O; destruct O as [O|O]; apply N.eqb_eq in O; auto
      end.
    + intros (L & A & S).
      assert (E1 : (id <? alertCounter s) = true) by (apply N.ltb_lt; exact L).
      assert (E2 : (msg_sender e =? tourist (alertAt s id)) || (msg_sender e =? owner s) = true).
      { apply orb_true_iff. destruct S as [S|S]; [left|right]; apply N.eqb_eq; exact S. }
      rewrite E1, A, E2. reflexivity.
  - intros s' ev. unfold resolveAlert. intros H.
    repeat case_match; try discriminate. injection H as <- _. reflexivity.
  - intros L A trace e2.
    assert (G : forall s0, id < alertCounter s0 -> isActive (alertAt s0 id) = false ->
                id < alertCounter (run keccak256 trace s0)
                /\ isActive (alertAt (run keccak256 trace s0) id) = false).
    { induction trace as [|[e1 c] rest IH]; intros s0 L0 A0; simpl; [auto|].
      apply IH.
      - unfold stateAfter. destruct c; run_alert; simpl; try assumption.
        match goal with H : (_ <=? _) = true |- _ => apply N.leb_le in H end. lia.
      - unfold stateAfter. destruct c; run_alert; simpl; try assumption.
        + unfold alertAt; simpl. rewrite lookup_insert_ne by lia. exact A0.
        + unfold alertAt; simpl.
          destruct (decide (alertId = id)) as [->|Hne].
          * rewrite lookup_insert_eq. reflexivity.
          * rewrite lookup_insert_ne by congruence. exact A0. }
    destruct (G s L A) as [L' A']. split; [exact A'|].
    unfold resolveAlert.
    assert (E1 : (id <? alertCounter (run keccak256 trace s)) = true)
      by (apply N.ltb_lt; exact L').
    rewrite E1, A'. reflexivity.
Qed.

Lemma alertAt_insert_eq s i a tA c ec ct o :
  alertAt (mkStorage (<[i := a]> (alerts s)) tA c ec ct o) i = a.
Proof. unfold alertAt; simpl. rewrite lookup_insert_eq. reflexivity. Qed.

Lemma alertAt_insert_ne s i a tA c ec ct o j :
  i <> j -> alertAt (mkStorage (<[i := a]> (alerts s)) tA c ec ct o) j = alertAt s j.
Proof. intros. unfold alertAt; simpl. rewrite lookup_insert_ne by assumption. reflexivity. Qed.

(** ** The loops *)

Lemma forEach_ext {S} (ids : list N) (f g : N -> S -> Result S) (st : S) :
  (forall i x, In i ids -> f i x = g i x) ->
  forEach ids f st = forEach ids g st.
Proof.
  revert st. induction ids as [|i rest IH]; intros st E; simpl; [reflexivity|].
  rewrite (E i st (or_introl eq_refl)).
  destruct (g i st); [reflexivity|].
  apply IH. intros j x Hj. apply E. right. exact Hj.
Qed.

Lemma forEach_count (b : N -> bool) (ids : list N) (c0 : N) :
  c0 + N.of_nat (length ids) <= MAX_UINT256 ->
  forEach ids (fun i c => if b i then increment c else inr c) c0
  = inr (c0 + N.of_nat (length (filter (fun i => b i = true) ids))).
Proof.
  revert c0. induction ids as [|i rest IH]; intros c0 B; simpl.
  - rewrite ?filter_nil. simpl. f_equal. lia.
  - simpl in B. rewrite filter_cons. destruct (b i) eqn:Bi.
    + unfold increment.
      assert (E : (c0 + 1 <=? MAX_UINT256) = true) by (apply N.leb_le; lia).
      rewrite E. rewrite IH by lia.
      destruct (decide (true = true)); [|congruence]. simpl. f_equal. lia.
    + rewrite IH by lia.
      destruct (decide (false = true)); [discriminate|]. reflexivity.
Qed.

Lemma length_filter_indices (P : N -> Prop) `{forall x, Decision (P x)} n :
  N.of_nat (length (filter P (indices n))) <= n.
Proof.
  pose proof (length_filter P (indices n)) as L. rewrite length_indices in L. lia.
Qed.

Lemma writeAt_ok (arr : list N) (i v : N) :
  (N.to_nat i < length arr)%nat -> writeAt arr i v = inr (<[N.to_nat i := v]> arr).
Proof.
  intros L. unfold writeAt.
  assert (E : (N.to_nat i <? length arr)%nat = true) by (apply Nat.ltb_lt; exact L).
  rewrite E. reflexivity.
Qed.

(** A loop that fills [arr[i]] for consecutive [i]. *)
Lemma forEach_fill (g : N -> Result N) (f : nat -> N) (m k : nat) (pre : list N) :
  length pre = k ->
  (forall j, (k <= j < k + m)%nat -> g (N.of_nat j) = inr (f j)) ->
  forEach (map N.of_nat (seq k m))
          (fun i arr => match g i with
                        | inl r => inl r
                        | inr v => writeAt arr i v
                        end)
          (pre ++ repeat 0 m)%list
  = inr (pre ++ map f (seq k m))%list.
Proof.
  revert k pre. induction m as [|m IH]; intros k pre Lp G; simpl.
  - reflexivity.
  - rewrite (G k) by lia.
    rewrite writeAt_ok by (rewrite Nat2N.id, length_app; simpl; lia).
    rewrite Nat2N.id.
    replace (<[k := f k]> (pre ++ 0 :: repeat 0 m)%list)
      with ((pre ++ [f k]) ++ repeat 0 m)%list.
    + rewrite (IH (S k) (pre ++ [f k])%list).
      * rewrite <- app_assoc. reflexivity.
      * rewrite length_app. simpl. lia.
      * intros j Hj. apply G. lia.
    + rewrite <- app_assoc. simpl.
      rewrite insert_app_r_alt by lia.
      replace (k - length pre)%nat with 0%nat by lia. reflexivity.
Qed.

(** X21. getActiveAlertsCount returns the number of identifiers below
    [alertCounter] whose alert is active; it never overflows, and the
    result is at most [alertCounter].  A successful triggerAlert raises
    the count by one and a successful resolveAlert lowers it by one. *)
Theorem active_count (e : Env) (s : Storage) :
  reachable keccak256 s ->
  getActiveAlertsCount s = inr (N.of_nat (length (activeIds s)))
  /\ N.of_nat (length (activeIds s)) <= alertCounter s
  /\ (forall ty loc desc s' ev,
        triggerAlert ty loc desc e s = inr (s', ev) ->
        getActiveAlertsCount s' = inr (N.of_nat (length (activeIds s)) + 1))
  /\ (forall id s' ev,
        resolveAlert id e s = inr (s', ev) ->
        getActiveAlertsCount s' = inr (N.of_nat (length (activeIds s)) - 1)
        /\ 1 <= N.of_nat (length (activeIds s))).
Proof.
  intros R.
  assert (C : forall s0, reachable keccak256 s0 ->
              getActiveAlertsCount s0 = inr (N.of_nat (length (activeIds s0)))).
  { intros s0 R0. destruct (consistent_reachable s0 R0) as (B & _).
    unfold getActiveAlertsCount.
    rewrite (forEach_count (fun i => isActive (alertAt s0 i))).
    - reflexivity.
    - rewrite length_indices. lia. }
  split; [apply C, R|]. split; [apply length_filter_indices|]. split.
  - intros ty loc desc s' ev H.
    rewrite (C s') by (eapply (reachable_step keccak256 e (TriggerAlert ty loc desc)); eassumption).
    f_equal. unfold triggerAlert, increment in H.
    repeat case_match; simplify_eq.
    unfold activeIds; simpl. rewrite indices_succ, filter_app, length_app.
    rewrite (filter_ext_members _ (fun i => isActive (alertAt s i) = true)).
    + rewrite filter_singleton; [|exact []].
      rewrite alertAt_insert_eq; simpl.
      destruct (decide (true = true)); [|congruence]. simpl. lia.
    + intros i Hi. apply In_indices in Hi.
      rewrite alertAt_insert_ne by lia. reflexivity.
  - intros id s' ev H.
    rewrite (C s') by (eapply (reachable_step keccak256 e (ResolveAlert id)); eassumption).
    unfold resolveAlert in H.
    repeat case_match; simplify_eq.
    repeat match goal with
           | H : negb _ = false |- _ => apply negb_false_iff in H
           end.
    match goal with H : (_ <? _) = true |- _ => apply N.ltb_lt in H; rename H into Hlt end.
    match goal with H : isActive _ = true |- _ => rename H into Hact end.
    unfold activeIds; simpl.
    assert (Hin : In id (indices (alertCounter s))) by (apply In_indices; exact Hlt).
    assert (ND : List.NoDup (indices (alertCounter s))).
    { unfold indices. apply Finite.Injective_map_NoDup; [|apply seq_NoDup].
      intros x y. apply Nat2N.inj. }
    revert Hin ND. generalize (indices (alertCounter s)) as l.
    induction l as [|x l IH]; intros Hin ND; [contradiction|].
    inversion ND as [|? ? Hnx ND']; subst.
    rewrite !filter_cons.
    destruct (decide (x = id)) as [->|Hne].
    + rewrite alertAt_insert_eq; simpl.
      destruct (decide (false = true)); [discriminate|].
      rewrite Hact. destruct (decide (true = true)); [|congruence]. simpl.
      rewrite (filter_ext_members _ (fun i => isActive (alertAt s i) = true)).
      * split; [f_equal|]; lia.
      * intros i Hi.
        rewrite alertAt_insert_ne by (intros ->; contradiction). reflexivity.
    + destruct Hin as [Hin|Hin]; [congruence|].
      destruct (IH Hin ND') as [IH1 IH2].
      rewrite alertAt_insert_ne by congruence.
      destruct (decide (isActive (alertAt s x) = true)); simpl.
      * injection IH1 as IH1. split; [f_equal|]; lia.
      * split; assumption.
Qed.

(** X22. getRecentAlerts reverts with "Count must be greater than 0" for
    a count of zero; otherwise it never fails and returns the
    [min(count, alertCounter)] most recent identifiers, newest first:
    [alertCounter - 1], [alertCounter - 2], and so on. *)
Theorem recent_alerts (count : uint256) (s : Storage) :
  let total := alertCounter s in
  let returnCount := if total <? count then total else count in
  getRecentAlerts 0 s = inl (Error "Count must be greater than 0")
  /\ (0 < count ->
      getRecentAlerts count s = inr (map (fun i => total - 1 - i) (indices returnCount))
      /\ length (map (fun i => total - 1 - i) (indices returnCount))
         = N.to_nat (N.min count total)
      /\ (forall k, k < returnCount ->
            map (fun i => total - 1 - i) (indices returnCount) !! N.to_nat k
            = Some (total - 1 - k)
            /\ total - 1 - k < total)).
Proof.
  intros total returnCount. split; [reflexivity|].
  intros Hc.
  assert (Hr : returnCount <= total).
  { subst returnCount. destruct (total <? count) eqn:E; [lia|].
    apply N.ltb_ge in E. exact E. }
  split; [|split].
  - unfold getRecentAlerts.
    assert (E : (0 <? count) = true) by (apply N.ltb_lt; exact Hc).
    rewrite E. simpl negb. cbv iota. fold total. fold returnCount.
    rewrite (forEach_ext _ _
      (fun i arr => match (match subtract total 1 with
                           | inl r => inl r
                           | inr t1 => subtract t1 i
                           end) with
                    | inl r => inl r
                    | inr v => writeAt arr i v
                    end)).
    + unfold indices, newArray.
      pose proof (forEach_fill
                    (fun i => match subtract total 1 with
                              | inl r => inl r
                              | inr t1 => subtract t1 i
                              end)
                    (fun j => total - 1 - N.of_nat j)
                    (N.to_nat returnCount) 0 [] eq_refl) as F.
      cbn [app] in F. etransitivity; [apply F|].
      2: { rewrite map_map. reflexivity. }
      intros j Hj. unfold subtract.
      assert (E1 : (1 <=? total) = true) by (apply N.leb_le; lia).
      rewrite E1.
      assert (E2 : (N.of_nat j <=? total - 1) = true) by (apply N.leb_le; lia).
      rewrite E2. reflexivity.
    + intros i x _. destruct (subtract total 1); [reflexivity|].
      destruct (subtract n i); reflexivity.
  - rewrite length_map, length_indices. subst returnCount.
    destruct (total <? count) eqn:E; [apply N.ltb_lt in E | apply N.ltb_ge in E]; lia.
  - intros k Hk. split; [|lia].
    unfold indices. rewrite map_map.
    rewrite list_lookup_fmap.
    rewrite lookup_seq_lt by lia. simpl. rewrite N2Nat.id. reflexivity.
Qed.

Lemma readAt_ok (arr : list N) (j : nat) (v : N) :
  arr !! j = Some v -> readAt arr (N.of_nat j) = inr v.
Proof. intros L. unfold readAt. rewrite Nat2N.id, L. reflexivity. Qed.

Lemma byType_loop (s : Storage) (ty : AlertType) (n : nat) (rest found : list N) :
  (length found + length rest <= n)%nat ->
  N.of_nat n <= MAX_UINT256 ->
  forEach rest
          (fun i (st : list N * N) =>
             let (tempAlerts, count) := st in
             if bool_decide (alertType (alertAt s i) = ty) then
               match writeAt tempAlerts count i with
               | inl r => inl r
               | inr tempAlerts' =>
                   match increment count with
                   | inl r => inl r
                   | inr count' => inr (tempAlerts', count')
                   end
               end
             else inr st)
          (found ++ repeat 0 (n - length found), N.of_nat (length found))
  = inr ((found ++ filter (fun i => alertType (alertAt s i) = ty) rest)
           ++ repeat 0 (n - length (found ++ filter (fun i => alertType (alertAt s i) = ty) rest)),
         N.of_nat (length (found ++ filter (fun i => alertType (alertAt s i) = ty) rest))).
Proof.
  revert found. induction rest as [|i rest IH]; intros found L B.
  - simpl. rewrite filter_nil, app_nil_r. reflexivity.
  - simpl in L. cbn [forEach]. rewrite filter_cons.
    destruct (decide (alertType (alertAt s i) = ty)) as [Hp|Hp].
    + rewrite bool_decide_eq_true_2 by exact Hp.
      rewrite writeAt_ok
        by (rewrite Nat2N.id, length_app, repeat_length; lia).
      unfold increment.
      assert (E : (N.of_nat (length found) + 1 <=? MAX_UINT256) = true)
        by (apply N.leb_le; lia).
      rewrite E. rewrite Nat2N.id.
      replace (<[length found := i]> (found ++ repeat 0 (n - length found)))
        with ((found ++ [i]) ++ repeat 0 (n - length (found ++ [i]))).
      * replace (N.of_nat (length found) + 1) with (N.of_nat (length (found ++ [i])))
          by (rewrite length_app; simpl; lia).
        rewrite IH by (try rewrite length_app; simpl; lia).
        rewrite <- !app_assoc. reflexivity.
      * rewrite insert_app_r_alt by lia.
        replace (length found - length found)%nat with 0%nat by lia.
        rewrite length_app. simpl.
        destruct (n - length found)%nat as [|k] eqn:Ek; [lia|].
        replace (n - (length found + 1))%nat with k by lia.
        simpl. rewrite <- app_assoc. reflexivity.
    + rewrite bool_decide_eq_false_2 by exact Hp. apply IH; [lia | exact B].
Qed.

Lemma map_lookup_prefix (l z : list N) :
  map (fun j => default 0 ((l ++ z) !! j)) (seq 0 (length l)) = l.
Proof.
  apply list_eq. intros i.
  rewrite list_lookup_fmap.
  destruct (decide (i < length l)%nat) as [Hi|Hi].
  - rewrite lookup_seq_lt by exact Hi. simpl.
    rewrite lookup_app_l by exact Hi.
    destruct (lookup_lt_is_Some_2 l i Hi) as [x Hx]. rewrite Hx. reflexivity.
  - rewrite lookup_seq_ge by lia. simpl.
    symmetry. apply lookup_ge_None. lia.
Qed.

Lemma filter_types_partition (s : Storage) (l : list N) :
  (length (filter (fun i => alertType (alertAt s i) = PANIC) l)
   + length (filter (fun i => alertType (alertAt s i) = GEOFENCE) l)
   + length (filter (fun i => alertType (alertAt s i) = ANOMALY) l))%nat
  = length l.
Proof.
  induction l as [|x l IH]; [reflexivity|].
  rewrite !filter_cons.
  destruct (alertType (alertAt s x)); repeat case_decide; try congruence; simpl; lia.
Qed.

(** X23. getAlertsByType never fails in a reachable state and returns,
    in increasing order, exactly the identifiers below [alertCounter]
    whose alert has the requested type; the three types split all
    identifiers between them. *)
Theorem alerts_by_type (ty : AlertType) (s : Storage) :
  reachable keccak256 s ->
  getAlertsByType ty s = inr (idsOfType ty s)
  /\ (forall i, In i (idsOfType ty s) <-> i < alertCounter s /\ alertType (alertAt s i) = ty)
  /\ (length (idsOfType PANIC s) + length (idsOfType GEOFENCE s)
      + length (idsOfType ANOMALY s))%nat = N.to_nat (alertCounter s).
Proof.
  intros R. destruct (consistent_reachable s R) as (B & _).
  split; [|split].
  - unfold getAlertsByType.
    pose proof (byType_loop s ty (N.to_nat (alertCounter s))
                  (indices (alertCounter s)) []) as L1.
    cbn [app length] in L1. rewrite Nat.sub_0_r in L1.
    unfold newArray. change (N.of_nat 0) with 0 in L1.
    rewrite L1 by (rewrite ?length_indices; lia).
    fold (idsOfType ty s).
    unfold indices at 1. rewrite Nat2N.id.
    pose proof (forEach_fill
                  (fun i => readAt (idsOfType ty s ++ repeat 0 (N.to_nat (alertCounter s)
                                                       - length (idsOfType ty s))) i)
                  (fun j => default 0 ((idsOfType ty s ++ repeat 0 (N.to_nat (alertCounter s)
                                                       - length (idsOfType ty s))) !! j))
                  (length (idsOfType ty s)) 0 [] eq_refl) as F.
    cbn [app] in F. etransitivity; [apply F|].
    + intros j Hj. apply readAt_ok.
      rewrite lookup_app_l by lia.
      destruct (lookup_lt_is_Some_2 (idsOfType ty s) j ltac:(lia)) as [x Hx].
      rewrite Hx. reflexivity.
    + rewrite map_lookup_prefix. reflexivity.
  - intros i. unfold idsOfType. rewrite <- list_elem_of_In, list_elem_of_filter.
    rewrite list_elem_of_In, In_indices. tauto.
  - unfold idsOfType. rewrite filter_types_partition. apply length_indices.
Qed.

(** ** Emergency contacts *)

Hypothesis keccak256_inj : forall a b, keccak256 a = keccak256 b -> a = b.

Lemma listed_In (types : list string) (ty : string) :
  listed keccak256 types ty = true <-> In ty types.
Proof.
  induction types as [|x rest IH]; simpl.
  - split; [discriminate | contradiction].
  - destruct (keccak256 x =? keccak256 ty) eqn:E.
    + apply N.eqb_eq, keccak256_inj in E. split; auto.
    + apply N.eqb_neq in E. rewrite IH. split; [auto|].
      intros [->|H]; [congruence | exact H].
Qed.

Lemma firstIndex_spec (types : list string) (ty : string) (k : nat) :
  match firstIndex keccak256 types ty k with
  | Some i => (k <= i)%nat /\ types !! (i - k)%nat = Some ty
  | None => ~ In ty types
  end.
Proof.
  revert k. induction types as [|x rest IH]; intros k; simpl.
  - tauto.
  - destruct (keccak256 x =? keccak256 ty) eqn:E.
    + apply N.eqb_eq, keccak256_inj in E. subst x.
      split; [lia|]. replace (k - k)%nat with 0%nat by lia. reflexivity.
    + apply N.eqb_neq in E. specialize (IH (S k)).
      destruct (firstIndex keccak256 rest ty (S k)) as [i|].
      * destruct IH as [Hk Hl]. split; [lia|].
        replace (i - k)%nat with (S (i - S k)) by lia. exact Hl.
      * intros [->|H]; [congruence | contradiction].
Qed.

Lemma swapRemove_spec (l : list string) (i : nat) (x : string) :
  NoDup l -> l !! i = Some x ->
  NoDup (swapRemove l i) /\ (forall y, In y (swapRemove l i) <-> In y l /\ y <> x).
Proof.
  intros ND Hi.
  assert (Hlen : (i < length l)%nat) by (eapply lookup_lt_Some; eassumption).
  destruct (exists_last (l := l)) as (front & last & ->).
  { intros ->. simpl in Hlen. lia. }
  unfold swapRemove. rewrite length_app. simpl.
  replace (length front + 1 - 1)%nat with (length front) by lia.
  rewrite lookup_app_r by lia.
  replace (length front - length front)%nat with 0%nat by lia. simpl.
  apply NoDup_app in ND. destruct ND as (NDf & Hdis & _).
  assert (Hlast : ~ In last front).
  { intros H. apply list_elem_of_In in H. apply (Hdis last H). left. }
  destruct (decide (i < length front)%nat) as [Hlt|Hge].
  - rewrite insert_app_l by exact Hlt.
    rewrite take_app_length' by (rewrite length_insert; reflexivity).
    rewrite lookup_app_l in Hi by exact Hlt.
    apply list_elem_of_split_length in Hi. destruct Hi as (a & b & -> & Hla).
    subst i. rewrite insert_app_r_alt by lia.
    replace (length a - length a)%nat with 0%nat by lia. simpl.
    apply NoDup_app in NDf. destruct NDf as (NDa & Hab & NDxb).
    apply NoDup_cons in NDxb. destruct NDxb as (Hxb & NDb).
    assert (Hxa : ~ In x a).
    { intros H. apply list_elem_of_In in H. apply (Hab x H). left. }
    split.
    + apply NoDup_app. split; [exact NDa|]. split.
      * intros y Hy Hy2. apply elem_of_cons in Hy2. destruct Hy2 as [->|Hy2].
        -- apply Hlast. apply in_or_app. left. apply list_elem_of_In. exact Hy.
        -- apply (Hab y Hy). right. exact Hy2.
      * apply NoDup_cons. split; [|exact NDb].
        intros H. apply Hlast. apply in_or_app. right. right.
        apply list_elem_of_In. exact H.
    + intros y. rewrite ?in_app_iff. simpl. rewrite ?in_app_iff. simpl.
      split.
      * intros [H|[<-|H]].
        -- split; [tauto|]. intros ->. contradiction.
        -- split; [tauto|]. intros ->. apply Hlast. apply in_or_app. right. left. reflexivity.
        -- split; [tauto|]. intros ->. apply Hxb. apply list_elem_of_In. exact H.
      * intros [[[H|[H|H]]|[H|[]]] Hne]; try tauto. congruence.
  - assert (Heq : i = length front) by (rewrite length_app in Hlen; simpl in Hlen; lia).
    subst i. rewrite lookup_app_r in Hi by lia.
    replace (length front - length front)%nat with 0%nat in Hi by lia.
    simpl in Hi. injection Hi as <-.
    rewrite insert_app_r_alt by lia.
    replace (length front - length front)%nat with 0%nat by lia. simpl.
    rewrite take_app_length. split; [exact NDf|].
    intros y. rewrite in_app_iff. simpl. split.
    + intros H. split; [tauto|]. intros ->. contradiction.
    + intros [[H|[H|[]]] Hne]; [exact H | congruence].
Qed.

Lemma contactsListed_step e c s s' ev :
  contactsListed s -> transact keccak256 e c s = inr (s', ev) -> contactsListed s'.
Proof.
  intros (ND & Hl) H. unfold contactsListed.
  destruct c; run_alert; simpl; try (split; assumption).
  - (* add, already listed *)
    split; [exact ND|]. intros t. unfold contactOf; simpl.
    destruct (decide (ty = t)) as [->|Hne].
    + intros _. apply listed_In. assumption.
    + rewrite lookup_insert_ne by exact Hne. apply Hl.
  - (* add, new *)
    assert (Hn : ~ In ty (contactTypes s)).
    { intros Hin. apply listed_In in Hin. congruence. }
    split.
    + apply NoDup_app. split; [exact ND|]. split.
      * intros y Hy Hy2. apply list_elem_of_singleton in Hy2. subst y.
        apply Hn, list_elem_of_In, Hy.
      * apply NoDup_singleton.
    + intros t. unfold contactOf; simpl. rewrite in_app_iff. simpl.
      destruct (decide (ty = t)) as [->|Hne]; [auto|].
      rewrite lookup_insert_ne by exact Hne. intros Hc. left. apply Hl, Hc.
  - (* remove, found *)
    match goal with F : firstIndex _ _ _ _ = Some ?n |- _ =>
      pose proof (firstIndex_spec (contactTypes s) ty 0) as FS; rewrite F in FS;
      destruct FS as [_ FS]; rewrite Nat.sub_0_r in FS;
      destruct (swapRemove_spec (contactTypes s) n ty ND FS) as [ND' El]
    end.
    split; [exact ND'|]. intros t. unfold contactOf; simpl.
    destruct (decide (ty = t)) as [->|Hne].
    + rewrite lookup_delete_eq. simpl. congruence.
    + rewrite lookup_delete_ne by exact Hne. intros Hc.
      apply El. split; [apply Hl, Hc | congruence].
  - (* remove, not listed: cannot happen, but harmless *)
    split; [exact ND|]. intros t. unfold contactOf; simpl.
    destruct (decide (ty = t)) as [->|Hne].
    + rewrite lookup_delete_eq. simpl. congruence.
    + rewrite lookup_delete_ne by exact Hne. apply Hl.
Qed.

Lemma contactsListed_reachable s : reachable keccak256 s -> contactsListed s.
Proof.
  induction 1 as [d|e c s s' ev R IH H].
  - split.
    + simpl. apply NoDup_ListNoDup.
      repeat constructor; simpl; intuition discriminate.
    + intros ty. unfold contactOf; simpl. rewrite lookup_empty. simpl. congruence.
  - eapply contactsListed_step; eassumption.
Qed.

(** X24. The contact register, for calls made by the owner in a
    reachable state (contact types being compared by a collision-free
    hash).  [contactTypes] never holds a type twice and lists every type
    that has a contact.  addEmergencyContact, given a non-null address and
    a non-empty type, stores the address (getEmergencyContact then returns
    it), lists the type once, and leaves every other contact and listed
    type alone.  removeEmergencyContact reverts with "Contact does not
    exist" for a type without a contact, such as the three types listed by
    the constructor; otherwise it clears the contact, removes the type
    from the list and keeps every other contact and listed type. *)
Theorem contact_register (e : Env) (s : Storage) (ty : string) (contact : address) :
  reachable keccak256 s ->
  msg_sender e = owner s ->
  NoDup (contactTypes s)
  /\ (forall t, contactOf s t <> address0 -> In t (contactTypes s))
  /\ (contact <> address0 -> ty <> "" ->
      exists s',
        addEmergencyContact keccak256 ty contact e s
        = inr (s', [EmergencyContactAdded ty contact])
        /\ getEmergencyContact ty s' = inr contact
        /\ (forall t, t <> ty -> contactOf s' t = contactOf s t)
        /\ (forall t, In t (contactTypes s') <-> In t (contactTypes s) \/ t = ty)
        /\ NoDup (contactTypes s'))
  /\ (contactOf s ty = address0 ->
      removeEmergencyContact keccak256 ty e s = inl (Error "Contact does not exist"))
  /\ (contactOf s ty <> address0 ->
      exists s',
        removeEmergencyContact keccak256 ty e s
        = inr (s', [EmergencyContactRemoved ty])
        /\ getEmergencyContact ty s' = inr address0
        /\ ~ In ty (contactTypes s')
        /\ (forall t, t <> ty ->
              contactOf s' t = contactOf s t
              /\ (In t (contactTypes s') <-> In t (contactTypes s)))
        /\ NoDup (contactTypes s')).
Proof.
  intros R O. destruct (contactsListed_reachable s R) as [ND Hl].
  assert (EO : (msg_sender e =? owner s) = true) by (apply N.eqb_eq; exact O).
  split; [exact ND|]. split; [exact Hl|]. split; [|split].
  - intros Hc Ht.
    assert (E1 : (contact =? address0) = false) by (apply N.eqb_neq; exact Hc).
    assert (E2 : (0 <? byteLength ty) = true).
    { apply N.ltb_lt. unfold byteLength. destruct ty; [congruence | simpl; lia]. }
    pose proof (contactsListed_step e (AddEmergencyContact ty contact) s) as St.
    unfold transact in St.
    unfold addEmergencyContact in *. rewrite EO, E1, E2 in *. simpl negb in *. cbv iota in *.
    eexists. split; [reflexivity|].
    destruct (St _ _ (conj ND Hl) eq_refl) as [ND' _]. simpl in ND'.
    unfold getEmergencyContact, contactOf; simpl. rewrite lookup_insert_eq. simpl.
    split; [reflexivity|]. split; [|split; [|exact ND']].
    + intros t Hne. rewrite lookup_insert_ne by congruence. reflexivity.
    + intros t. destruct (listed keccak256 (contactTypes s) ty) eqn:Li.
      * apply listed_In in Li. split; [auto|]. intros [H| ->]; assumption.
      * rewrite in_app_iff. simpl. split; [intros [H|[<-|[]]]; auto|].
        intros [H| ->]; auto.
  - intros Hz. unfold removeEmergencyContact. rewrite EO, Hz. reflexivity.
  - intros Hc.
    assert (E1 : (contactOf s ty =? address0) = false) by (apply N.eqb_neq; exact Hc).
    pose proof (Hl ty Hc) as Hin.
    pose proof (firstIndex_spec (contactTypes s) ty 0) as FS.
    unfold removeEmergencyContact. rewrite EO, E1. simpl negb. cbv iota.
    destruct (firstIndex keccak256 (contactTypes s) ty 0) as [n|]; [|contradiction].
    destruct FS as [_ FS]. rewrite Nat.sub_0_r in FS.
    destruct (swapRemove_spec (contactTypes s) n ty ND FS) as [ND' El].
    eexists. split; [reflexivity|].
    unfold getEmergencyContact, contactOf; simpl. rewrite lookup_delete_eq. simpl.
    split; [reflexivity|]. split; [|split; [|exact ND']].
    + intros H. apply El in H. destruct H as [_ H]. congruence.
    + intros t Hne. rewrite lookup_delete_ne by congruence. split; [reflexivity|].
      rewrite El. tauto.
Qed.

(** ** Statistics *)

Lemma touristListed_spec (arr : list N) (t : N) (m k : nat) :
  (k + m <= length arr)%nat ->
  touristListed (map N.of_nat (seq k m)) arr t
  = inr (bool_decide (t ∈ take m (drop k arr))).
Proof.
  revert k. induction m as [|m IH]; intros k L; cbn [seq map touristListed].
  - rewrite take_0. rewrite bool_decide_eq_false_2; [reflexivity|].
    apply not_elem_of_nil.
  - destruct (lookup_lt_is_Some_2 arr k ltac:(lia)) as [u Hu].
    rewrite (readAt_ok arr k u Hu).
    rewrite (drop_S arr u k Hu). cbn [take].
    destruct (u =? t) eqn:E.
    + apply N.eqb_eq in E. subst u.
      rewrite bool_decide_eq_true_2; [reflexivity | left].
    + apply N.eqb_neq in E. rewrite IH by lia.
      f_equal. apply bool_decide_ext. rewrite elem_of_cons. split; [auto|].
      intros [->|H]; [congruence | exact H].
Qed.

Lemma stats_loop (s : Storage) (n : nat) (rest : list N) (a : N) (seen : list N) :
  (length seen + length rest <= n)%nat ->
  N.of_nat n <= MAX_UINT256 ->
  a + N.of_nat (length rest) <= MAX_UINT256 ->
  forEach rest
          (fun i (st : N * list N * N) =>
             let '(activeAlerts, uniqueTourists, touristCount) := st in
             match (if isActive (alertAt s i) then increment activeAlerts
                    else inr activeAlerts) with
             | inl r => inl r
             | inr activeAlerts' =>
                 match touristListed (indices touristCount) uniqueTourists
                                     (tourist (alertAt s i)) with
                 | inl r => inl r
                 | inr true => inr (activeAlerts', uniqueTourists, touristCount)
                 | inr false =>
                     match writeAt uniqueTourists touristCount (tourist (alertAt s i)) with
                     | inl r => inl r
                     | inr uniqueTourists' =>
                         match increment touristCount with
                         | inl r => inl r
                         | inr touristCount' =>
                             inr (activeAlerts', uniqueTourists', touristCount')
                         end
                     end
                 end
             end)
          (a, seen ++ repeat 0 (n - length seen), N.of_nat (length seen))
  = inr (a + N.of_nat (length (filter (fun i => isActive (alertAt s i) = true) rest)),
         addNew seen (map (fun i => tourist (alertAt s i)) rest)
           ++ repeat 0 (n - length (addNew seen (map (fun i => tourist (alertAt s i)) rest))),
         N.of_nat (length (addNew seen (map (fun i => tourist (alertAt s i)) rest)))).
Proof.
  revert a seen. induction rest as [|i rest IH]; intros a seen L B A.
  - cbn [forEach map]. rewrite filter_nil. unfold addNew. cbn [fold_left length].
    change (N.of_nat 0) with 0. rewrite N.add_0_r. reflexivity.
  - simpl in L, A. cbn [forEach]. rewrite filter_cons.
    assert (Act : (if isActive (alertAt s i) then increment a else inr a)
                  = inr (a + if isActive (alertAt s i) then 1 else 0)).
    { destruct (isActive (alertAt s i)); [|rewrite N.add_0_r; reflexivity].
      unfold increment.
      assert (E : (a + 1 <=? MAX_UINT256) = true) by (apply N.leb_le; lia).
      rewrite E. reflexivity. }
    rewrite Act.
    unfold indices at 1. rewrite Nat2N.id.
    rewrite touristListed_spec by (rewrite length_app, repeat_length; simpl; lia).
    rewrite drop_0, take_app_length.
    cbn [map]. unfold addNew at 1 2 3. cbn [fold_left].
    fold (addNew (if bool_decide (tourist (alertAt s i) ∈ seen) then seen
                  else seen ++ [tourist (alertAt s i)])
                 (map (fun i0 => tourist (alertAt s i0)) rest)).
    destruct (bool_decide (tourist (alertAt s i) ∈ seen)) eqn:Seen.
    + rewrite IH by (try lia; destruct (isActive (alertAt s i)); lia).
      f_equal. f_equal. f_equal.
      destruct (isActive (alertAt s i)); simpl.
      * destruct (decide (true = true)); [|congruence]. simpl. lia.
      * destruct (decide (false = true)); [discriminate|]. lia.
    + rewrite writeAt_ok by (rewrite Nat2N.id, length_app, repeat_length; lia).
      unfold increment.
      assert (E : (N.of_nat (length seen) + 1 <=? MAX_UINT256) = true)
        by (apply N.leb_le; lia).
      rewrite E. rewrite Nat2N.id.
      replace (<[length seen := tourist (alertAt s i)]> (seen ++ repeat 0 (n - length seen)))
        with ((seen ++ [tourist (alertAt s i)])
                ++ repeat 0 (n - length (seen ++ [tourist (alertAt s i)]))).
      * replace (N.of_nat (length seen) + 1)
          with (N.of_nat (length (seen ++ [tourist (alertAt s i)])))
          by (rewrite length_app; simpl; lia).
        rewrite IH
          by (try rewrite length_app; simpl; try lia;
              destruct (isActive (alertAt s i)); lia).
        f_equal. f_equal. f_equal.
        destruct (isActive (alertAt s i)); simpl.
        -- destruct (decide (true = true)); [|congruence]. simpl. lia.
        -- destruct (decide (false = true)); [discriminate|]. lia.
      * rewrite insert_app_r_alt by lia.
        replace (length seen - length seen)%nat with 0%nat by lia.
        rewrite length_app. simpl.
        destruct (n - length seen)%nat as [|k] eqn:Ek; [lia|].
        replace (n - (length seen + 1))%nat with k by lia.
        simpl. rewrite <- app_assoc. reflexivity.
Qed.

Lemma addNew_spec (acc l : list N) :
  NoDup acc ->
  NoDup (addNew acc l) /\ (forall x, x ∈ addNew acc l <-> x ∈ acc \/ x ∈ l).
Proof.
  revert acc. induction l as [|t l IH]; intros acc ND; simpl.
  - split; [exact ND|]. intros x. rewrite elem_of_nil. tauto.
  - unfold addNew. cbn [fold_left].
    destruct (bool_decide (t ∈ acc)) eqn:E.
    + apply bool_decide_eq_true in E.
      destruct (IH acc ND) as [N1 N2]. split; [exact N1|].
      intros x. rewrite elem_of_cons. unfold addNew in N2. rewrite N2.
      split; [tauto|]. intros [H|[->|H]]; auto.
    + apply bool_decide_eq_false in E.
      assert (ND' : NoDup (acc ++ [t])).
      { apply NoDup_app. split; [exact ND|]. split; [|apply NoDup_singleton].
        intros y Hy Hy2. apply list_elem_of_singleton in Hy2. subst y. contradiction. }
      destruct (IH (acc ++ [t]) ND') as [N1 N2]. split; [exact N1|].
      intros x. rewrite elem_of_cons. unfold addNew in N2. rewrite N2.
      rewrite elem_of_app, list_elem_of_singleton. tauto.
Qed.

Lemma length_addNew (l : list N) :
  length (addNew [] l) = length (remove_dups l).
Proof.
  destruct (addNew_spec [] l (NoDup_nil_2)) as [N1 N2].
  apply Permutation_length. apply NoDup_Permutation.
  - exact N1.
  - apply NoDup_remove_dups.
  - intros x. rewrite N2, elem_of_remove_dups, elem_of_nil. tauto.
Qed.

Lemma length_remove_dups_le (l : list N) :
  (length (remove_dups l) <= length l)%nat.
Proof.
  induction l as [|x l IH]; simpl; [lia|].
  destruct (decide_rel elem_of x l); simpl; lia.
Qed.

(** X25. getContractStats never fails in a reachable state and returns
    the number of alerts ([alertCounter]), the number of active alerts
    (the value getActiveAlertsCount returns) and the number of distinct
    addresses that have raised an alert. *)
Theorem contract_stats (s : Storage) :
  reachable keccak256 s ->
  getContractStats s
  = inr (alertCounter s,
         N.of_nat (length (activeIds s)),
         N.of_nat (length (remove_dups (touristsSeen s))))
  /\ getActiveAlertsCount s = inr (N.of_nat (length (activeIds s)))
  /\ N.of_nat (length (remove_dups (touristsSeen s))) <= alertCounter s.
Proof.
  intros R. destruct (consistent_reachable s R) as (B & _).
  split; [|split].
  - unfold getContractStats.
    pose proof (stats_loop s (N.to_nat (alertCounter s)) (indices (alertCounter s)) 0 []) as L1.
    cbn [app length] in L1. rewrite Nat.sub_0_r in L1.
    unfold newArray. change (N.of_nat 0) with 0 in L1.
    rewrite L1 by (rewrite ?length_indices; lia).
    rewrite N.add_0_l. fold (activeIds s). fold (touristsSeen s).
    rewrite length_addNew. reflexivity.
  - unfold getActiveAlertsCount.
    rewrite (forEach_count (fun i => isActive (alertAt s i))).
    + reflexivity.
    + rewrite length_indices. lia.
  - pose proof (length_remove_dups_le (touristsSeen s)) as Hl.
    unfold touristsSeen in Hl at 2. rewrite length_map, length_indices in Hl. lia.
Qed.

End Alerts.

(** ** The facts on a concrete register *)

Lemma idealHash_inj a b : idealHash a = idealHash b -> a = b.
Proof. unfold idealHash. intros [= H]. apply (inj encode) in H. exact H. Qed.

Lemma reachable_run_alerts k trace s :
  reachable k s -> reachable k (run k trace s).
Proof.
  revert s. induction trace as [|[e c] rest IH]; intros s R; simpl; [exact R|].
  apply IH. unfold stateAfter.
  destruct (transact k e c s) as [r|[s' ev]] eqn:H; [exact R|].
  eapply reachable_step; eassumption.
Qed.

Lemma reachable_demo : reachable idealHash demo.
Proof. apply reachable_run_alerts, reachable_deployed. Qed.

Lemma triggerAlert_next_id_witness :
  exists s',
    triggerAlert PANIC "12.97,77.59" "help" (accepting tina 100) (constructor alice)
    = inr (s', [AlertTriggered 0 tina PANIC "12.97,77.59" 100 "help"])
    /\ alertCounter s' = 1
    /\ getAlert 0 s' = inr (mkAlert tina PANIC "12.97,77.59" 100 true "help").
Proof.
  destruct (proj2 (triggerAlert_next_id PANIC "12.97,77.59" "help"
                     (accepting tina 100) (constructor alice))
                  ltac:(discriminate) ltac:(vm_compute; reflexivity))
    as (s' & H1 & H2 & _ & H4 & _).
  exists s'. repeat split; assumption.
Defined.

Lemma alert_register_consistent_witness :
  getTouristAlerts tina demo = inr [0; 2]
  /\ getAlert 3 demo = inl (Error "Alert does not exist").
Proof.
  destruct (alert_register_consistent idealHash demo reachable_demo)
    as (_ & Z & _ & T).
  split.
  - rewrite T. vm_compute. reflexivity.
  - apply Z. vm_compute. discriminate.
Defined.

Lemma resolveAlert_once_witness :
  resolveAlert 0 (accepting tina 900)
    (run idealHash [(accepting tina 600, TriggerAlert PANIC "here" "")] demo)
  = inl (Error "Alert is already resolved").
Proof.
  apply (proj2 (proj2 (resolveAlert_once idealHash (accepting tina 900) demo 0))
               ltac:(vm_compute; reflexivity) ltac:(vm_compute; reflexivity)
               [(accepting tina 600, TriggerAlert PANIC "here" "")]
               (accepting tina 900)).
Defined.

Lemma active_count_witness :
  getActiveAlertsCount demo = inr 2.
Proof.
  rewrite (proj1 (active_count idealHash (accepting 9 0) demo reachable_demo)).
  vm_compute. reflexivity.
Defined.

Lemma recent_alerts_witness :
  getRecentAlerts 2 demo = inr [2; 1].
Proof.
  rewrite (proj1 (proj2 (recent_alerts 2 demo) ltac:(vm_compute; reflexivity))).
  vm_compute. reflexivity.
Defined.

Lemma alerts_by_type_witness :
  getAlertsByType GEOFENCE demo = inr [1].
Proof.
  rewrite (proj1 (alerts_by_type idealHash GEOFENCE demo reachable_demo)).
  vm_compute. reflexivity.
Defined.

Lemma contact_register_witness :
  removeEmergencyContact idealHash "POLICE" (accepting alice 700) demo
  = inl (Error "Contact does not exist")
  /\ exists s',
       removeEmergencyContact idealHash "FIRE" (accepting alice 700) demo
       = inr (s', [EmergencyContactRemoved "FIRE"])
       /\ ~ In "FIRE" (contactTypes s').
Proof.
  destruct (contact_register idealHash idealHash_inj (accepting alice 700) demo
              "POLICE" 0 reachable_demo ltac:(vm_compute; reflexivity))
    as (_ & _ & _ & M & _).
  destruct (contact_register idealHash idealHash_inj (accepting alice 700) demo
              "FIRE" 0 reachable_demo ltac:(vm_compute; reflexivity))
    as (_ & _ & _ & _ & Rm).
  split.
  - apply M. vm_compute. reflexivity.
  - destruct (Rm ltac:(vm_compute; discriminate)) as (s' & H1 & _ & H3 & _).
    exists s'. split; assumption.
Defined.

Lemma contract_stats_witness :
  getContractStats demo = inr (3, 2, 2).
Proof.
  rewrite (proj1 (contract_stats idealHash demo reachable_demo)).
  vm_compute. reflexivity.
Defined.

End EmergencyAlertFacts.
